(** * Document-processing pipeline: model of [app/message_processor.py]

    The pipeline reads a PDF, splits its text in chunks of about one
    hundred words that end at a sentence boundary, asks a language model
    for keywords and a summary of each chunk, and stores the result in one
    database transaction.

    The Python functions are embedded as Rocq functions that keep their
    names.  Strings are lists of Unicode code points, Python values that
    cross the interfaces (JSON-like data) are the inductive [PyVal],
    exceptions are values of [exn], and the effectful functions live in a
    small state-and-exception monad whose state holds the database and a
    trace of the calls made to the outside world. *)

From Stdlib Require Import String Ascii.
From Stdlib Require Import List Arith NArith ZArith Bool Lia.
From Equations Require Import Equations.
From Equations.Prop Require Import Logic.
Import ListNotations.


(** ** Python strings *)

Module Py.

(** A [str] is a sequence of Unicode code points. *)
Definition char := N.
Definition str := list char.

(** String literals of the development, read as Latin-1 text. *)
Definition u (s : string) : str :=
  map N_of_ascii (list_ascii_of_string s).

(** [str.isspace] on one code point: the table CPython uses for
    [str.split()] and [str.strip()] without arguments. *)
Definition isspace (c : char) : bool :=
  ((9 <=? c) && (c <=? 13))%N
  || ((28 <=? c) && (c <=? 32))%N
  || (c =? 133)%N || (c =? 160)%N || (c =? 5760)%N
  || ((8192 <=? c) && (c <=? 8202))%N
  || (c =? 8232)%N || (c =? 8233)%N || (c =? 8239)%N
  || (c =? 8287)%N || (c =? 12288)%N.

Definition SPACE : char := 32%N.
Definition DOT : char := 46%N.
Definition COMMA : char := 44%N.

(** The pending word of [split] is sealed when a separator or the end of
    the text is met; an empty pending word produces nothing. *)
Definition flush (word : str) : list str :=
  match word with
  | [] => []
  | _ :: _ => [word]
  end.

(** [s.split()]: maximal runs of non-whitespace code points, in order.
    [word] is the run being read. *)
Fixpoint split_from (word : str) (s : str) : list str :=
  match s with
  | [] => flush word
  | c :: rest =>
      if isspace c then flush word ++ split_from [] rest
      else split_from (word ++ [c]) rest
  end.

Definition split (s : str) : list str := split_from [] s.

(** [sep.join(parts)]. *)
Fixpoint join (sep : str) (parts : list str) : str :=
  match parts with
  | [] => []
  | [p] => p
  | p :: rest => p ++ sep ++ join sep rest
  end.

Fixpoint lstrip (s : str) : str :=
  match s with
  | [] => []
  | c :: rest => if isspace c then lstrip rest else s
  end.

Definition rstrip (s : str) : str := rev (lstrip (rev s)).

(** [s.strip()]. *)
Definition strip (s : str) : str := lstrip (rstrip s).

(** [s.endswith(".")]. *)
Definition endswith_dot (s : str) : bool :=
  match rev s with
  | c :: _ => (c =? DOT)%N
  | [] => false
  end.

(** [s.split(",")] : the fields between commas; one field more than
    there are commas. *)
Fixpoint split_comma_from (field : str) (s : str) : list str :=
  match s with
  | [] => [field]
  | c :: rest =>
      if (c =? COMMA)%N then field :: split_comma_from [] rest
      else split_comma_from (field ++ [c]) rest
  end.

Definition split_comma (s : str) : list str := split_comma_from [] s.

End Py.

Import Py.

(** ** The chunker *)

Definition MIN_WORDS : nat := 100.

(** The three loop variables of [chunk_content]. *)
Record ChunkState := mkChunkState {
  chunks : list str;
  current_chunk : list str;
  word_count : nat
}.

(** One turn of the [for word in content.split()] loop. *)
Definition chunk_step (st : ChunkState) (word : str) : ChunkState :=
  let current := current_chunk st ++ [word] in
  let count := word_count st + 1 in
  if endswith_dot word && (MIN_WORDS <=? count) then
    mkChunkState (chunks st ++ [strip (join [SPACE] current)]) [] 0
  else
    mkChunkState (chunks st) current count.

(** The statement after the loop: a non-empty buffer becomes the last
    chunk. *)
Definition chunk_finish (st : ChunkState) : list str :=
  match current_chunk st with
  | [] => chunks st
  | _ :: _ => chunks st ++ [strip (join [SPACE] (current_chunk st))]
  end.

Definition chunk_content (content : str) : list str :=
  chunk_finish (fold_left chunk_step (split content) (mkChunkState [] [] 0)).

(** *** The chunker as the specification words it

    Tokens are grouped by a greedy forward scan: the group ends at the
    first token that stands at position 100 or later in the group and
    ends in a full stop; what is left when no such token exists is the
    last group. *)

(** Position (counted from [pos]) of the first token at or after the
    100-word mark that ends in a full stop. *)
Fixpoint boundary_from (pos : nat) (tokens : list str) : option nat :=
  match tokens with
  | [] => None
  | w :: rest =>
      if (MIN_WORDS <=? pos) && endswith_dot w then Some pos
      else boundary_from (S pos) rest
  end.

Definition first_boundary (tokens : list str) : option nat :=
  boundary_from 1 tokens.

Equations? greedy_groups (tokens : list str) : list (list str)
  by wf (length tokens) lt :=
  greedy_groups tokens with inspect (first_boundary tokens) => {
    | exist _ (Some p) _ => firstn p tokens :: greedy_groups (skipn p tokens);
    | exist _ None _ => match tokens with [] => [] | _ :: _ => [tokens] end }.
Proof.
  assert (bounds : forall ts pos q,
             boundary_from pos ts = Some q -> pos <= q < pos + length ts).
  { induction ts as [|w rest IH]; intros pos q; simpl.
    - discriminate.
    - destruct (_ && _).
      + intros [= <-]. lia.
      + intros H. apply IH in H. lia. }
  apply bounds in e. rewrite length_skipn. lia.
Qed.

(** A sealed group: tokens rejoined with single spaces and trimmed. *)
Definition seal (group : list str) : str := strip (join [SPACE] group).

Definition greedy_chunks (content : str) : list str :=
  map seal (greedy_groups (split content)).

(** ** Python values and exceptions *)

Fixpoint str_eqb (a b : str) : bool :=
  match a, b with
  | [], [] => true
  | x :: a', y :: b' => (x =? y)%N && str_eqb a' b'
  | _, _ => false
  end.

(** The values that travel through the pipeline: the message, the answer
    of the language model and the enriched chunks are JSON-like data.  A
    [dict] keeps its entries in insertion order; a lookup takes the first
    entry of the key. *)
#[local] Unset Elimination Schemes.
Inductive PyVal :=
| VNone
| VBool (b : bool)
| VInt (n : Z)
| VStr (s : str)
| VList (items : list PyVal)
| VDict (entries : list (str * PyVal)).

#[local] Set Elimination Schemes.

Definition dict := list (str * PyVal).

Fixpoint dict_get (d : dict) (key : str) : option PyVal :=
  match d with
  | [] => None
  | (k, v) :: rest => if str_eqb k key then Some v else dict_get rest key
  end.

(** Exceptions, all of them subclasses of [Exception]: every one is caught
    by an [except Exception] clause. *)
Inductive exn :=
| KeyError (key : str)
| TypeError
| AttributeError
| FileNotFoundError
| SQLAlchemyError (code : N)
| OtherException (code : N).

Inductive outcome (A : Type) :=
| Return (a : A)
| Raise (e : exn).
Arguments Return {A} a.
Arguments Raise {A} e.

(** [d[key]]. *)
Definition getitem (d : dict) (key : str) : outcome PyVal :=
  match dict_get d key with
  | Some v => Return v
  | None => Raise (KeyError key)
  end.

(** [d.get(key, default)] on a dict. *)
Definition get_default (d : dict) (key : str) (default : PyVal) : PyVal :=
  match dict_get d key with
  | Some v => v
  | None => default
  end.

(** [v.get(key, default)] on any value: only a dict has the method. *)
Definition py_get (v : PyVal) (key : str) (default : PyVal)
  : outcome PyVal :=
  match v with
  | VDict d => Return (get_default d key default)
  | _ => Raise AttributeError
  end.

(** The strings of a list of values, when every one is a string. *)
Fixpoint all_strs (items : list PyVal) : option (list str) :=
  match items with
  | [] => Some []
  | VStr s :: rest =>
      match all_strs rest with
      | Some l => Some (s :: l)
      | None => None
      end
  | _ :: _ => None
  end.

(** [sep.join(v)]: [v] is iterated; a list gives its items, a string its
    characters, a dict its keys; an item that is not a string, or a value
    that cannot be iterated, is a [TypeError]. *)
Definition py_join (sep : str) (v : PyVal) : outcome str :=
  match v with
  | VList items =>
      match all_strs items with
      | Some l => Return (join sep l)
      | None => Raise TypeError
      end
  | VStr s => Return (join sep (map (fun c => [c]) s))
  | VDict d => Return (join sep (map fst d))
  | _ => Raise TypeError
  end.

(** ** The outside world *)

(** A row of the [document_data] table ([app.models.DocumentData]). *)
Module Models.
Record DocumentData := mkDocumentData {
  chunk_id : N;
  document_name : PyVal;
  role : PyVal;
  chunk_number : nat;
  chunk_content : PyVal;
  keywords : PyVal;
  summary : PyVal
}.
End Models.

Definition bytes := list Byte.byte.

(** What the collaborators answer.  The pipeline is verified for every
    world. *)
Record World := mkWorld {
  (** [aiofiles.open(path, 'rb')] followed by [f.read()] *)
  file_bytes : PyVal -> outcome bytes;
  (** [PyPDF2.PdfReader(BytesIO(data)).pages], each page with the outcome
      of its [extract_text()] *)
  pdf_pages : bytes -> outcome (list (outcome (option str)));
  (** [ask_llm] for chunk number [i] with the chunk as context *)
  ask_llm : nat -> str -> outcome PyVal;
  (** the successive results of [uuid.uuid4()] *)
  uuid4 : nat -> N;
  (** whether [db.add_all] and [db.commit] fail on the given rows *)
  add_all_fault : list Models.DocumentData -> option exn;
  commit_fault : list Models.DocumentData -> option exn;
  (** whether [db.rollback()] and [db.close()] fail on a session that
      something has reached *)
  rollback_fault : option exn;
  close_fault : option exn
}.

Inductive LogLevel := INFO | WARNING | ERROR.

(** The calls the pipeline makes to the outside, in order. *)
Inductive Event :=
| EvLog (level : LogLevel)
| EvOpen (path : PyVal)
| EvAskLlm (i : nat) (context : str)
| EvSession
| EvAddAll (records : list Models.DocumentData)
| EvCommit
| EvRollback
| EvClose.

(** The database and the trace.  [rows] are the committed, visible rows;
    [staged] are the rows pending in the open session. *)
Record State := mkState {
  rows : list Models.DocumentData;
  staged : list Models.DocumentData;
  trace : list Event
}.

(** ** A state and exception monad *)

Definition M (A : Type) : Type := State -> outcome A * State.

Definition ret {A} (a : A) : M A := fun st => (Return a, st).

Definition raise {A} (e : exn) : M A := fun st => (Raise e, st).

Definition bind {A B} (m : M A) (k : A -> M B) : M B :=
  fun st =>
    match m st with
    | (Return a, st') => k a st'
    | (Raise e, st') => (Raise e, st')
    end.

Definition lift {A} (o : outcome A) : M A := fun st => (o, st).

(** [try: body  except Exception as e: handler e]. *)
Definition try_except {A} (body : M A) (handler : exn -> M A) : M A :=
  fun st =>
    match body st with
    | (Return a, st') => (Return a, st')
    | (Raise e, st') => handler e st'
    end.

(** [try: body  finally: final]: [final] runs on both paths and the
    outcome of [body] stands. *)
Definition try_finally {A} (body : M A) (final : M unit) : M A :=
  fun st =>
    match body st with
    | (r, st') =>
        match final st' with
        | (Return _, st'') => (r, st'')
        | (Raise e, st'') => (Raise e, st'')
        end
    end.

Declare Scope monad_scope.
Delimit Scope monad_scope with monad.
Notation "x <- m ;; k" := (bind m (fun x => k))
  (at level 61, m at next level, right associativity) : monad_scope.
Notation "m ;; k" := (bind m (fun _ => k))
  (at level 61, right associativity) : monad_scope.
Open Scope monad_scope.

Definition emit (ev : Event) : M unit :=
  fun st => (Return tt, mkState (rows st) (staged st) (trace st ++ [ev])).

(** [logger.info], [logger.warning], [logger.error]; [logger.exception]
    logs at level [ERROR]. *)
Definition log (level : LogLevel) : M unit := emit (EvLog level).

(** ** The pipeline *)

(** *** [read_file_content] *)

(** [page.extract_text() or ""]. *)
Definition page_text (page : outcome (option str)) : outcome str :=
  match page with
  | Return (Some text) => Return text
  | Return None => Return []
  | Raise e => Raise e
  end.

(** The generator handed to ["\n".join]: the first page that fails ends
    the iteration with its exception. *)
Fixpoint page_texts (pages : list (outcome (option str)))
  : outcome (list str) :=
  match pages with
  | [] => Return []
  | page :: rest =>
      match page_text page with
      | Raise e => Raise e
      | Return text =>
          match page_texts rest with
          | Raise e => Raise e
          | Return texts => Return (text :: texts)
          end
      end
  end.

Definition NEWLINE : char := 10%N.

Definition read_file_content (w : World) (file_path : PyVal) : M str :=
  data <- try_except
            (emit (EvOpen file_path) ;; lift (file_bytes w file_path))
            (fun e =>
               match e with
               | FileNotFoundError => log ERROR ;; raise e
               | _ => log ERROR ;; raise e
               end) ;;
  try_except
    (pages <- lift (pdf_pages w data) ;;
     texts <- lift (page_texts pages) ;;
     ret (join [NEWLINE] texts))
    (fun e => log ERROR ;; raise e).

(** *** [enrich_chunks_with_llm] *)

Definition K_CONTENT : str := u "content".
Definition K_KEYWORDS : str := u "keywords".
Definition K_SUMMARY : str := u "summary".

(** The call itself: one request per chunk, recorded in the trace. *)
Definition call_llm (w : World) (i : nat) (chunk : str) : M PyVal :=
  emit (EvAskLlm i chunk) ;; lift (ask_llm w i chunk).

(** The dict appended when the call and the reading of its answer
    succeed. *)
Definition enriched_of (chunk : str) (llm_response : PyVal)
  : outcome dict :=
  match py_get llm_response K_KEYWORDS (VList []) with
  | Raise e => Raise e
  | Return kws =>
      match py_join [COMMA] kws with
      | Raise e => Raise e
      | Return joined =>
          match py_get llm_response K_SUMMARY (VStr []) with
          | Raise e => Raise e
          | Return sm =>
              Return [(K_CONTENT, VStr chunk);
                      (K_KEYWORDS, VStr joined);
                      (K_SUMMARY, sm)]
          end
      end
  end.

(** The dict appended by the [except] clause. *)
Definition unenriched (chunk : str) : dict :=
  [(K_CONTENT, VStr chunk); (K_KEYWORDS, VStr []); (K_SUMMARY, VStr [])].

(** The [for i, chunk in enumerate(chunks, start=1)] loop; [enriched] is
    the list built so far. *)
Fixpoint enrich_loop (w : World) (i : nat) (chunks : list str)
  (enriched : list dict) : M (list dict) :=
  match chunks with
  | [] => ret enriched
  | chunk :: rest =>
      enriched' <-
        try_except
          (llm_response <- call_llm w i chunk ;;
           d <- lift (enriched_of chunk llm_response) ;;
           ret (enriched ++ [d]))
          (fun _ => log ERROR ;; ret (enriched ++ [unenriched chunk])) ;;
      enrich_loop w (S i) rest enriched'
  end.

Definition enrich_chunks_with_llm (w : World) (chunks : list str)
  : M (list dict) :=
  enrich_loop w 1 chunks [].

(** *** [store_chunks_in_db] *)

(** The list comprehension over [enumerate(enriched_chunks)]; [i] is the
    index of the first item.  [item["content"]] raises [KeyError] when the
    key is missing, the two [get] calls have a default. *)
Fixpoint db_chunks_from (w : World) (i : nat) (enriched_chunks : list dict)
  (document_name role : PyVal) : outcome (list Models.DocumentData) :=
  match enriched_chunks with
  | [] => Return []
  | item :: rest =>
      match getitem item K_CONTENT with
      | Raise e => Raise e
      | Return content =>
          let row :=
            Models.mkDocumentData (uuid4 w i) document_name role (i + 1)
              content
              (get_default item K_KEYWORDS (VStr []))
              (get_default item K_SUMMARY (VStr [])) in
          match db_chunks_from w (S i) rest document_name role with
          | Raise e => Raise e
          | Return others => Return (row :: others)
          end
      end
  end.

Definition db_chunks (w : World) (enriched_chunks : list dict)
  (document_name role : PyVal) : outcome (list Models.DocumentData) :=
  db_chunks_from w 0 enriched_chunks document_name role.

(** [SessionLocal()]: a fresh session, nothing staged. *)
Definition session_local : M unit :=
  fun st => (Return tt, mkState (rows st) [] (trace st ++ [EvSession])).

(** [db.add_all(records)]: the records join the pending rows. *)
Definition add_all (w : World) (records : list Models.DocumentData)
  : M unit :=
  fun st =>
    let tr := trace st ++ [EvAddAll records] in
    match add_all_fault w records with
    | Some e => (Raise e, mkState (rows st) (staged st) tr)
    | None => (Return tt, mkState (rows st) (staged st ++ records) tr)
    end.

(** [db.commit()]: the pending rows become visible together, or the
    commit fails and none does. *)
Definition commit (w : World) : M unit :=
  fun st =>
    let tr := trace st ++ [EvCommit] in
    match commit_fault w (staged st) with
    | Some e => (Raise e, mkState (rows st) (staged st) tr)
    | None => (Return tt, mkState (rows st ++ staged st) [] tr)
    end.

(** Whether anything has reached the session since [SessionLocal()]
    made it, read off the calls from the newest to the oldest.  A session
    that has seen neither [add_all] nor [commit] holds no transaction and
    no connection: rolling it back or closing it does nothing and cannot
    fail. *)
Fixpoint session_used_from (newest_first : list Event) : bool :=
  match newest_first with
  | [] => false
  | EvSession :: _ => false
  | EvAddAll _ :: _ => true
  | EvCommit :: _ => true
  | _ :: earlier => session_used_from earlier
  end.

Definition session_used (st : State) : bool :=
  session_used_from (rev (trace st)).

(** [db.rollback()]: the pending rows are dropped, or the rollback fails
    and raises. *)
Definition rollback (w : World) : M unit :=
  fun st =>
    let tr := trace st ++ [EvRollback] in
    match (if session_used st then rollback_fault w else None) with
    | Some e => (Raise e, mkState (rows st) (staged st) tr)
    | None => (Return tt, mkState (rows st) [] tr)
    end.

(** [db.close()]: the session is given up, and with it what it had
    pending; the call may fail and raise. *)
Definition close (w : World) : M unit :=
  fun st =>
    let tr := trace st ++ [EvClose] in
    match (if session_used st then close_fault w else None) with
    | Some e => (Raise e, mkState (rows st) [] tr)
    | None => (Return tt, mkState (rows st) [] tr)
    end.

(** The body of the [try] of [store_chunks_in_db]. *)
Definition store_body (w : World) (enriched_chunks : list dict)
  (document_name role : PyVal) : M unit :=
  records <- lift (db_chunks w enriched_chunks document_name role) ;;
  add_all w records ;;
  commit w.

Definition store_chunks_in_db (w : World) (enriched_chunks : list dict)
  (document_name role : PyVal) : M unit :=
  session_local ;;
  try_finally
    (try_except
       (store_body w enriched_chunks document_name role)
       (fun e =>
          match e with
          | SQLAlchemyError _ => rollback w ;; log ERROR ;; raise e
          | _ => rollback w ;; log ERROR ;; raise e
          end))
    (close w).

(** *** [process_document] *)

Definition K_FILE_PATH : str := u "file_path".
Definition K_ORIGINAL_NAME : str := u "original_name".
Definition K_ROLE_REQUIRED : str := u "role_required".
Definition ANALYST : PyVal := VStr (u "Analyst").

(** The body of the first [try]: the three fields of the message. *)
Definition message_fields (message : dict)
  : outcome (PyVal * PyVal * PyVal) :=
  match getitem message K_FILE_PATH with
  | Raise e => Raise e
  | Return file_path =>
      match getitem message K_ORIGINAL_NAME with
      | Raise e => Raise e
      | Return original_name =>
          Return (file_path, original_name,
                  get_default message K_ROLE_REQUIRED ANALYST)
      end
  end.

(** What [process_document] does once the message is read. *)
Definition process_fields (w : World) (file_path original_name role : PyVal)
  : M unit :=
  log INFO ;;
  read <- try_except
            (content <- read_file_content w file_path ;;
             log INFO ;; ret (Some content))
            (fun _ => log ERROR ;; ret None) ;;
  match read with
  | None => ret tt
  | Some content =>
      match chunk_content content with
      | [] => log WARNING ;; ret tt
      | (_ :: _) as chunks =>
          log INFO ;;
          enriched_chunks <- enrich_chunks_with_llm w chunks ;;
          log INFO ;;
          stored <- try_except
                      (store_chunks_in_db w enriched_chunks original_name
                         role ;;
                       log INFO ;; ret true)
                      (fun _ => log ERROR ;; ret false) ;;
          if stored then log INFO ;; ret tt else ret tt
      end
  end.

Definition process_document (w : World) (message : dict) : M unit :=
  match message_fields message with
  | Raise (KeyError _) => log ERROR ;; ret tt
  | Raise e => raise e
  | Return (file_path, original_name, role) =>
      process_fields w file_path original_name role
  end.

(** ** Facts about strings *)

Section StringFacts.

Definition nospace (w : str) : Prop := Forall (fun c => isspace c = false) w.

(** What [split] produces: a non-empty run without whitespace. *)
Definition token (w : str) : Prop := w <> [] /\ nospace w.

Lemma nospace_app a b : nospace a -> nospace b -> nospace (a ++ b).
Proof. intros Ha Hb. apply Forall_app. split; assumption. Qed.

Lemma flush_tokens word : nospace word -> Forall token (flush word).
Proof.
  destruct word as [|c word]; simpl; intros H; constructor.
  - split; [discriminate | assumption].
  - constructor.
Qed.

Lemma split_from_tokens s : forall word,
  nospace word -> Forall token (split_from word s).
Proof.
  induction s as [|c rest IH]; intros word Hw; simpl.
  - apply flush_tokens, Hw.
  - destruct (isspace c) eqn:Ec.
    + apply Forall_app. split.
      * apply flush_tokens, Hw.
      * apply IH. constructor.
    + apply IH. apply nospace_app; [assumption|].
      constructor; [assumption | constructor].
Qed.

Lemma split_tokens s : Forall token (split s).
Proof. apply split_from_tokens. constructor. Qed.

Lemma split_from_nospace w : forall word s,
  nospace w -> split_from word (w ++ s) = split_from (word ++ w) s.
Proof.
  induction w as [|c w IH]; intros word s Hw; simpl.
  - rewrite app_nil_r. reflexivity.
  - inversion Hw as [|? ? Hc Hw']; subst. rewrite Hc.
    rewrite IH by assumption. rewrite <- app_assoc. reflexivity.
Qed.

Lemma isspace_SPACE : isspace SPACE = true.
Proof. reflexivity. Qed.

Lemma isspace_DOT : isspace DOT = false.
Proof. reflexivity. Qed.

Lemma split_from_space word s :
  split_from word ([SPACE] ++ s) = flush word ++ split s.
Proof. reflexivity. Qed.

(** Splitting what was joined with single spaces gives the tokens back. *)
Lemma split_join tokens :
  Forall token tokens -> split (join [SPACE] tokens) = tokens.
Proof.
  induction tokens as [|t rest IH]; intros H.
  - reflexivity.
  - inversion H as [|? ? [Hne Hns] Hrest]; subst.
    destruct rest as [|t' rest'].
    + simpl. unfold split. rewrite <- (app_nil_r t) at 1.
      rewrite split_from_nospace by assumption. simpl.
      destruct t; [contradiction Hne; reflexivity | reflexivity].
    + change (join [SPACE] (t :: t' :: rest'))
        with (t ++ [SPACE] ++ join [SPACE] (t' :: rest')).
      unfold split at 1. rewrite split_from_nospace by assumption.
      rewrite split_from_space, IH by assumption.
      destruct t; [contradiction Hne; reflexivity | reflexivity].
Qed.

Lemma lstrip_token t s : token t -> lstrip (t ++ s) = t ++ s.
Proof.
  intros [Hne Hns]. destruct t as [|c t]; [contradiction Hne; reflexivity|].
  inversion Hns; subst. simpl. 
  match goal with H : isspace c = false |- _ => rewrite H end. reflexivity.
Qed.

Lemma token_rev t : token t -> token (rev t).
Proof.
  intros [Hne Hns]. split.
  - intros H. apply Hne. rewrite <- (rev_involutive t), H. reflexivity.
  - apply Forall_rev, Hns.
Qed.

(** A joined, non-empty list of tokens ends with its last token. *)
Lemma join_ends tokens :
  Forall token tokens -> tokens <> [] ->
  exists pre t, token t /\ join [SPACE] tokens = pre ++ t
                /\ last tokens [] = t.
Proof.
  induction tokens as [|t rest IH]; intros H Hne; [contradiction Hne; reflexivity|].
  inversion H as [|? ? Ht Hrest]; subst.
  destruct rest as [|t' rest'].
  - exists [], t. repeat split; try apply Ht.
  - destruct IH as (pre & z & Hz & Hj & Hl); [assumption | discriminate |].
    exists (t ++ [SPACE] ++ pre), z. split; [assumption|]. split.
    + change (join [SPACE] (t :: t' :: rest'))
        with (t ++ [SPACE] ++ join [SPACE] (t' :: rest')).
      rewrite Hj, !app_assoc. reflexivity.
    + exact Hl.
Qed.

Lemma join_starts tokens :
  Forall token tokens -> tokens <> [] ->
  exists t post, token t /\ join [SPACE] tokens = t ++ post.
Proof.
  destruct tokens as [|t rest]; intros H Hne; [contradiction Hne; reflexivity|].
  inversion H as [|? ? Ht Hrest]; subst.
  destruct rest as [|t' rest'].
  - exists t, []. rewrite app_nil_r. split; [assumption | reflexivity].
  - exists t, ([SPACE] ++ join [SPACE] (t' :: rest')). split; [assumption | reflexivity].
Qed.

(** Trimming a sealed group of tokens changes nothing. *)
Lemma seal_join group :
  Forall token group -> seal group = join [SPACE] group.
Proof.
  intros H. unfold seal, strip, rstrip.
  destruct group as [|t rest]; [reflexivity|].
  destruct (@join_ends (t :: rest)) as (pre & z & Hz & Hj & _);
    [assumption | discriminate |].
  destruct (@join_starts (t :: rest)) as (a & post & Ha & Hj');
    [assumption | discriminate |].
  rewrite Hj at 1. rewrite rev_app_distr.
  rewrite lstrip_token by (apply token_rev, Hz).
  rewrite <- rev_app_distr, rev_involutive, <- Hj, Hj'.
  apply lstrip_token, Ha.
Qed.

Lemma split_seal group : Forall token group -> split (seal group) = group.
Proof.
  intros H. rewrite seal_join by assumption. apply split_join, H.
Qed.

Lemma join_cons_nonempty (g : str) rest :
  rest <> [] -> join [SPACE] (g :: rest) = g ++ [SPACE] ++ join [SPACE] rest.
Proof. destruct rest; [intros H; contradiction H; reflexivity | reflexivity]. Qed.

Lemma join_app a b :
  a <> [] -> b <> [] ->
  join [SPACE] (a ++ b) = join [SPACE] a ++ [SPACE] ++ join [SPACE] b.
Proof.
  induction a as [|x a IH]; intros Ha Hb; [contradiction Ha; reflexivity|].
  destruct a as [|y a].
  - simpl app at 1. rewrite join_cons_nonempty by assumption. reflexivity.
  - change ((x :: y :: a) ++ b) with (x :: ((y :: a) ++ b)).
    rewrite join_cons_nonempty by discriminate.
    rewrite IH by (discriminate || assumption).
    rewrite (@join_cons_nonempty x (y :: a)) by discriminate.
    rewrite <- !app_assoc. reflexivity.
Qed.

(** Joining the joined groups is joining all their tokens. *)
Lemma join_concat groups :
  Forall (fun g => g <> []) groups ->
  join [SPACE] (map (join [SPACE]) groups) = join [SPACE] (concat groups).
Proof.
  induction groups as [|g rest IH]; intros H; [reflexivity|].
  inversion H as [|? ? Hg Hrest]; subst.
  destruct rest as [|g' rest'].
  - simpl. rewrite app_nil_r. reflexivity.
  - change (map (join [SPACE]) (g :: g' :: rest'))
      with (join [SPACE] g :: map (join [SPACE]) (g' :: rest')).
    rewrite join_cons_nonempty by discriminate.
    rewrite IH by assumption.
    change (concat (g :: g' :: rest')) with (g ++ concat (g' :: rest')).
    rewrite join_app; [reflexivity | assumption |].
    inversion Hrest; subst. simpl. destruct g'; [congruence | discriminate].
Qed.

End StringFacts.

(** ** Facts about the greedy grouping *)

Section GreedyFacts.

Lemma boundary_from_bounds pos tokens p :
  boundary_from pos tokens = Some p -> pos <= p < pos + length tokens.
Proof.
  revert pos; induction tokens as [|w rest IH]; intros pos;
    cbn [boundary_from length].
  - discriminate.
  - destruct (_ && _).
    + intros [= <-]. lia.
    + intros H. apply IH in H. lia.
Qed.

Lemma greedy_groups_eq tokens :
  greedy_groups tokens =
  match first_boundary tokens with
  | Some p => firstn p tokens :: greedy_groups (skipn p tokens)
  | None => match tokens with [] => [] | _ :: _ => [tokens] end
  end.
Proof.
  assert (H : forall o (e : first_boundary tokens = o),
             greedy_groups_unfold_clause_1 tokens (exist _ o e) =
             match o with
             | Some p => firstn p tokens :: greedy_groups (skipn p tokens)
             | None => match tokens with [] => [] | _ :: _ => [tokens] end
             end).
  { intros [p|] e.
    - apply greedy_groups_clause_1_equation_1.
    - apply greedy_groups_clause_1_equation_2. }
  rewrite greedy_groups_equation_1. unfold Logic.inspect. apply H.
Qed.

Lemma boundary_from_app pos a b :
  boundary_from pos (a ++ b) =
  match boundary_from pos a with
  | Some p => Some p
  | None => boundary_from (pos + length a) b
  end.
Proof.
  revert pos; induction a as [|w a IH]; intros pos;
    cbn [boundary_from length app].
  - rewrite Nat.add_0_r. reflexivity.
  - destruct (_ && _); [reflexivity|].
    rewrite IH. replace (S pos + length a) with (pos + S (length a)) by lia.
    reflexivity.
Qed.

Lemma nth_error_shift (t : str) rest pos q :
  pos < q -> nth_error (t :: rest) (q - pos) = nth_error rest (q - S pos).
Proof.
  intros H. replace (q - pos) with (S (q - S pos)) by lia. reflexivity.
Qed.

Lemma boundary_cond_false pos t :
  (MIN_WORDS <=? pos) && endswith_dot t = false ->
  MIN_WORDS <= pos -> endswith_dot t = false.
Proof.
  intros H Hm. apply Nat.leb_le in Hm. rewrite Hm in H. exact H.
Qed.

(** [boundary_from] finds the least position that qualifies. *)
Lemma boundary_from_some pos tokens p :
  boundary_from pos tokens = Some p <->
  pos <= p < pos + length tokens /\ MIN_WORDS <= p
  /\ (exists w, nth_error tokens (p - pos) = Some w /\ endswith_dot w = true)
  /\ (forall q w, pos <= q < p -> MIN_WORDS <= q ->
        nth_error tokens (q - pos) = Some w -> endswith_dot w = false).
Proof.
  revert pos; induction tokens as [|t rest IH]; intros pos;
    cbn [boundary_from length].
  - split; [discriminate | intros [H _]; lia].
  - destruct ((MIN_WORDS <=? pos) && endswith_dot t) eqn:Ec.
    + apply andb_prop in Ec. destruct Ec as [Em Ed]. apply Nat.leb_le in Em.
      split.
      * intros [= <-]. split; [lia|]. split; [assumption|]. split.
        -- exists t. rewrite Nat.sub_diag. split; [reflexivity | assumption].
        -- intros q w Hq. lia.
      * intros (Hb & _ & _ & Hmin).
        destruct (Nat.eq_dec p pos) as [->|Hne]; [reflexivity|].
        specialize (Hmin pos t). rewrite Nat.sub_diag in Hmin.
        rewrite Hmin in Ed; [discriminate | lia | assumption | reflexivity].
    + rewrite IH. split.
      * intros (Hb & Hp & (w & Hw & Hd) & Hmin).
        split; [lia|]. split; [assumption|]. split.
        -- exists w. rewrite nth_error_shift by lia. split; assumption.
        -- intros q w' Hq Hm Hn.
           destruct (Nat.eq_dec q pos) as [->|Hne].
           ++ rewrite Nat.sub_diag in Hn. injection Hn as <-.
              apply (boundary_cond_false _ _ Ec Hm).
           ++ rewrite nth_error_shift in Hn by lia.
              apply (Hmin q w'); [lia | assumption | assumption].
      * intros (Hb & Hp & (w & Hw & Hd) & Hmin).
        assert (Hne : p <> pos).
        { intros ->. rewrite Nat.sub_diag in Hw. injection Hw as <-.
          rewrite (boundary_cond_false _ _ Ec Hp) in Hd. discriminate. }
        split; [lia|]. split; [assumption|]. split.
        -- exists w. rewrite nth_error_shift in Hw by lia. split; assumption.
        -- intros q w' Hq Hm Hn. apply (Hmin q w'); [lia | assumption |].
           rewrite nth_error_shift by lia. exact Hn.
Qed.

Lemma boundary_from_none pos tokens :
  boundary_from pos tokens = None <->
  (forall q w, pos <= q -> MIN_WORDS <= q ->
     nth_error tokens (q - pos) = Some w -> endswith_dot w = false).
Proof.
  revert pos; induction tokens as [|t rest IH]; intros pos;
    cbn [boundary_from length].
  - split; [|reflexivity]. intros _ q w _ _ H.
    destruct (q - pos); discriminate.
  - destruct ((MIN_WORDS <=? pos) && endswith_dot t) eqn:Ec.
    + apply andb_prop in Ec. destruct Ec as [Em Ed]. apply Nat.leb_le in Em.
      split; [discriminate|]. intros H.
      specialize (H pos t). rewrite Nat.sub_diag in H.
      rewrite H in Ed; [discriminate | lia | assumption | reflexivity].
    + rewrite IH. split; intros H q w Hq Hm Hn.
      * destruct (Nat.eq_dec q pos) as [->|Hne].
        -- rewrite Nat.sub_diag in Hn. injection Hn as <-.
           apply (boundary_cond_false _ _ Ec Hm).
        -- rewrite nth_error_shift in Hn by lia.
           apply (H q w); [lia | assumption | assumption].
      * apply (H q w); [lia | assumption |].
        rewrite nth_error_shift by lia. exact Hn.
Qed.

(** Induction along the groups that [greedy_groups] cuts. *)
Lemma greedy_groups_cases (P : list str -> list (list str) -> Prop) :
  P [] [] ->
  (forall tokens, tokens <> [] -> first_boundary tokens = None ->
     P tokens [tokens]) ->
  (forall tokens p, first_boundary tokens = Some p ->
     P (skipn p tokens) (greedy_groups (skipn p tokens)) ->
     P tokens (firstn p tokens :: greedy_groups (skipn p tokens))) ->
  forall tokens, P tokens (greedy_groups tokens).
Proof.
  intros Hnil Hlast Hcut tokens.
  remember (length tokens) as n eqn:Hn. revert tokens Hn.
  induction n as [n IH] using lt_wf_ind. intros tokens ->.
  rewrite greedy_groups_eq. destruct (first_boundary tokens) as [p|] eqn:E.
  - apply Hcut; [assumption|].
    apply (IH (length (skipn p tokens))); [|reflexivity].
    apply boundary_from_bounds in E. rewrite length_skipn. lia.
  - destruct tokens as [|t rest]; [apply Hnil|].
    apply Hlast; [discriminate | assumption].
Qed.

Lemma greedy_groups_concat tokens : concat (greedy_groups tokens) = tokens.
Proof.
  apply (greedy_groups_cases (fun ts gs => concat gs = ts)).
  - reflexivity.
  - intros ts _ _. simpl. apply app_nil_r.
  - intros ts p _ IH. simpl. rewrite IH. apply firstn_skipn.
Qed.

Lemma greedy_groups_nonempty tokens :
  Forall (fun g => g <> []) (greedy_groups tokens).
Proof.
  apply (greedy_groups_cases (fun _ gs => Forall (fun g => g <> []) gs)).
  - constructor.
  - intros ts Hne _. constructor; [assumption | constructor].
  - intros ts p E IH. constructor; [|assumption].
    apply boundary_from_bounds in E. destruct ts as [|t ts]; simpl in E; [lia|].
    destruct p; [lia | discriminate].
Qed.

(** A group sealed inside the loop: at least [MIN_WORDS] tokens, the last
    of which ends in a full stop. *)
Definition full_group (g : list str) : Prop :=
  MIN_WORDS <= length g /\ endswith_dot (last g []) = true.

Lemma firstn_snoc (l : list str) k w :
  nth_error l k = Some w -> firstn (S k) l = firstn k l ++ [w].
Proof.
  revert k; induction l as [|x l IH]; intros [|k] H; try discriminate.
  - injection H as ->. reflexivity.
  - simpl in H. rewrite !firstn_cons, (IH k H). reflexivity.
Qed.

Lemma first_boundary_full tokens p :
  first_boundary tokens = Some p -> full_group (firstn p tokens).
Proof.
  intros E. apply boundary_from_some in E.
  destruct E as (Hb & Hp & (w & Hw & Hd) & _). split.
  - rewrite length_firstn. lia.
  - replace p with (S (p - 1)) by lia.
    rewrite (firstn_snoc _ _ _ Hw), last_last. exact Hd.
Qed.

Lemma Forall_removelast_cons {A} (P : A -> Prop) x l :
  P x -> Forall P (removelast l) -> Forall P (removelast (x :: l)).
Proof.
  intros Hx Hl. destruct l as [|y l]; [constructor|].
  change (removelast (x :: y :: l)) with (x :: removelast (y :: l)).
  constructor; assumption.
Qed.

Lemma greedy_groups_full tokens :
  Forall full_group (removelast (greedy_groups tokens)).
Proof.
  apply (greedy_groups_cases
           (fun _ gs => Forall full_group (removelast gs))).
  - constructor.
  - intros. constructor.
  - intros ts p E IH. apply Forall_removelast_cons; [|assumption].
    apply first_boundary_full, E.
Qed.

Lemma greedy_groups_tokens tokens :
  Forall token tokens -> Forall (Forall token) (greedy_groups tokens).
Proof.
  intros H. apply Forall_concat. rewrite greedy_groups_concat. exact H.
Qed.

Lemma chunk_step_eq done current count w :
  chunk_step (mkChunkState done current count) w =
  if endswith_dot w && (MIN_WORDS <=? count + 1)
  then mkChunkState (done ++ [strip (join [SPACE] (current ++ [w]))]) [] 0
  else mkChunkState done (current ++ [w]) (count + 1).
Proof. reflexivity. Qed.

(** The loop of [chunk_content], started in the middle of a group that has
    met no boundary yet, cuts the same groups as the greedy scan. *)
Lemma chunk_loop_greedy words : forall done current,
  first_boundary current = None ->
  chunk_finish
    (fold_left chunk_step words (mkChunkState done current (length current)))
  = done ++ map seal (greedy_groups (current ++ words)).
Proof.
  induction words as [|w words IH]; intros done current Hnone.
  - rewrite app_nil_r, greedy_groups_eq, Hnone. unfold chunk_finish. simpl.
    destruct current; [symmetry; apply app_nil_r | reflexivity].
  - cbn [fold_left]. rewrite chunk_step_eq.
    destruct (endswith_dot w && (MIN_WORDS <=? length current + 1)) eqn:Ec.
    + change 0 with (length (@nil str)).
      rewrite (IH (done ++ [strip (join [SPACE] (current ++ [w]))]) []
                 eq_refl).
      assert (Hb : first_boundary (current ++ w :: words)
                   = Some (length current + 1)).
      { unfold first_boundary. rewrite boundary_from_app.
        fold (first_boundary current). rewrite Hnone. cbn [boundary_from].
        replace (1 + length current) with (length current + 1) by lia.
        rewrite (andb_comm (MIN_WORDS <=? _)), Ec. reflexivity. }
      rewrite (greedy_groups_eq (current ++ w :: words)), Hb.
      replace (current ++ w :: words) with ((current ++ [w]) ++ words)
        by (rewrite <- app_assoc; reflexivity).
      replace (length current + 1) with (length (current ++ [w]))
        by (rewrite length_app; simpl; lia).
      rewrite firstn_app, firstn_all, skipn_app, skipn_all, Nat.sub_diag.
      simpl. rewrite app_nil_r, <- app_assoc. reflexivity.
    + replace (length current + 1) with (length (current ++ [w]))
        by (rewrite length_app; simpl; lia).
      rewrite IH.
      * rewrite <- app_assoc. reflexivity.
      * unfold first_boundary. rewrite boundary_from_app.
        fold (first_boundary current). rewrite Hnone. cbn [boundary_from].
        replace (1 + length current) with (length current + 1) by lia.
        rewrite (andb_comm (MIN_WORDS <=? _)), Ec. reflexivity.
Qed.

(** The chunker computes the greedy forward scan of the specification. *)
Lemma chunk_content_greedy content :
  chunk_content content = greedy_chunks content.
Proof.
  unfold chunk_content, greedy_chunks.
  apply (chunk_loop_greedy (split content) [] []). reflexivity.
Qed.

Lemma chunk_content_groups content :
  exists groups,
    chunk_content content = map (join [SPACE]) groups
    /\ concat groups = split content
    /\ Forall (Forall token) groups
    /\ Forall (fun g => g <> []) groups
    /\ Forall full_group (removelast groups).
Proof.
  exists (greedy_groups (split content)).
  pose proof (greedy_groups_tokens _ (split_tokens content)) as Ht.
  split; [|split; [|split; [|split]]].
  - rewrite chunk_content_greedy. unfold greedy_chunks.
    apply map_ext_Forall. revert Ht. apply Forall_impl.
    intros g Hg. apply seal_join, Hg.
  - apply greedy_groups_concat.
  - exact Ht.
  - apply greedy_groups_nonempty.
  - apply greedy_groups_full.
Qed.

End GreedyFacts.

(** ** The chunker: properties *)

Lemma endswith_dot_app pre z :
  z <> [] -> endswith_dot (pre ++ z) = endswith_dot z.
Proof.
  intros Hz. unfold endswith_dot. rewrite rev_app_distr.
  destruct (rev z) as [|c r] eqn:E; [|reflexivity].
  contradiction Hz. rewrite <- (rev_involutive z), E. reflexivity.
Qed.

Lemma map_split_join groups :
  Forall (Forall token) groups ->
  map split (map (join [SPACE]) groups) = groups.
Proof.
  induction 1 as [|g rest Hg _ IH]; [reflexivity|].
  simpl. rewrite split_join, IH by assumption. reflexivity.
Qed.

Lemma removelast_map {A B} (f : A -> B) l :
  removelast (map f l) = map f (removelast l).
Proof.
  induction l as [|x l IH]; [reflexivity|].
  destruct l as [|y l]; [reflexivity|].
  change (f x :: removelast (map f (y :: l))
          = f x :: map f (removelast (y :: l))).
  rewrite IH. reflexivity.
Qed.

Lemma Forall_removelast {A} (P : A -> Prop) l :
  Forall P l -> Forall P (removelast l).
Proof.
  induction 1 as [|x l Hx Hl IH]; [constructor|].
  apply Forall_removelast_cons; assumption.
Qed.

(** C2: the chunks of [chunk_content], rejoined in order with single
    spaces and split again on whitespace, give exactly the tokens of the
    input, in order; so do the tokens of the chunks taken one chunk after
    the other.  No token is dropped, duplicated or moved. *)
Theorem chunk_content_keeps_tokens content :
  split (join [SPACE] (chunk_content content)) = split content
  /\ concat (map split (chunk_content content)) = split content.
Proof.
  destruct (chunk_content_groups content)
    as (groups & Hc & Hcat & Htok & Hne & _).
  rewrite Hc. split.
  - rewrite join_concat by assumption. rewrite Hcat.
    apply split_join, split_tokens.
  - rewrite map_split_join by assumption. exact Hcat.
Qed.

(** C3: every chunk of [chunk_content] but the last one has at least 100
    whitespace-separated words, and its last word, hence the chunk
    itself, ends with a full stop.  Nothing is required of the last
    chunk. *)
Theorem chunk_content_full_chunks content :
  Forall (fun chunk =>
            100 <= length (split chunk)
            /\ endswith_dot (last (split chunk) []) = true
            /\ endswith_dot chunk = true)
         (removelast (chunk_content content)).
Proof.
  destruct (chunk_content_groups content)
    as (groups & Hc & _ & Htok & Hne & Hfull).
  rewrite Hc, removelast_map. apply Forall_map.
  apply Forall_removelast in Htok. apply Forall_removelast in Hne.
  revert Htok Hne Hfull. generalize (removelast groups) as gs.
  induction gs as [|g gs IH]; intros Htok Hne Hfull; [constructor|].
  inversion Htok; inversion Hne; inversion Hfull; subst.
  constructor; [|apply IH; assumption].
  match goal with H : full_group g |- _ => destruct H as [Hlen Hdot] end.
  rewrite split_join by assumption.
  split; [exact Hlen|]. split; [exact Hdot|].
  destruct (join_ends g) as (pre & z & [Hz _] & Hj & Hl);
    [assumption | assumption |].
  rewrite Hj, endswith_dot_app by assumption. rewrite <- Hl. exact Hdot.
Qed.

(** The last chunk may indeed be short and end without a full stop. *)
Example chunk_content_short_last :
  chunk_content (u " One two three ") = [u "One two three"].
Proof. reflexivity. Qed.

(** C4: [chunk_content] is the greedy forward scan.  Its chunks are the
    sealed groups of [greedy_groups]; a group ends at position [p] of the
    tokens that remain exactly when [p] is the first position at or after
    100 whose token ends with a full stop; when no such position exists the
    remaining tokens, if any, form the last group whatever their number
    and their last character. *)
Theorem chunk_content_greedy_scan content :
  chunk_content content = map seal (greedy_groups (split content))
  /\ (forall tokens,
        greedy_groups tokens =
        match first_boundary tokens with
        | Some p => firstn p tokens :: greedy_groups (skipn p tokens)
        | None => match tokens with [] => [] | _ :: _ => [tokens] end
        end)
  /\ (forall tokens p,
        first_boundary tokens = Some p <->
        (100 <= p <= length tokens
         /\ (exists w, nth_error tokens (p - 1) = Some w
                       /\ endswith_dot w = true)
         /\ forall q w, 100 <= q < p -> nth_error tokens (q - 1) = Some w ->
                        endswith_dot w = false))
  /\ (forall tokens,
        first_boundary tokens = None <->
        (forall q w, 100 <= q -> nth_error tokens (q - 1) = Some w ->
                     endswith_dot w = false)).
Proof.
  split; [apply chunk_content_greedy|].
  split; [apply greedy_groups_eq|]. split.
  - intros tokens p. unfold first_boundary. rewrite boundary_from_some.
    unfold MIN_WORDS. split.
    + intros (Hb & Hp & Hw & Hmin). split; [lia|]. split; [assumption|].
      intros q w Hq Hn. apply (Hmin q w); [lia | lia | assumption].
    + intros (Hb & Hw & Hmin). split; [lia|]. split; [lia|].
      split; [assumption|].
      intros q w Hq Hm Hn. apply (Hmin q w); [lia | assumption].
  - intros tokens. unfold first_boundary. rewrite boundary_from_none.
    unfold MIN_WORDS. split.
    + intros H q w Hq Hn. apply (H q w); [lia | assumption | assumption].
    + intros H q w _ Hq Hn. apply (H q w); assumption.
Qed.

(** C10: every chunk of [chunk_content] is a non-empty string whose first
    and last characters are not whitespace, whatever the input. *)
Theorem chunk_content_chunks_trimmed content :
  Forall (fun chunk =>
            chunk <> []
            /\ (forall c rest, chunk = c :: rest -> isspace c = false)
            /\ (forall init c, chunk = init ++ [c] -> isspace c = false))
         (chunk_content content).
Proof.
  destruct (chunk_content_groups content)
    as (groups & Hc & _ & Htok & Hne & _).
  rewrite Hc. clear Hc. apply Forall_map.
  induction groups as [|g gs IH]; [constructor|].
  inversion Htok; inversion Hne; subst.
  constructor; [|apply IH; assumption].
  destruct (join_starts g) as (t & post & [Ht Hts] & Hj);
    [assumption | assumption |].
  destruct (join_ends g) as (pre & z & [Hz Hzs] & Hj' & _);
    [assumption | assumption |].
  split; [|split].
  - rewrite Hj. destruct t; [contradiction Ht; reflexivity | discriminate].
  - intros c rest E. rewrite Hj in E.
    destruct t as [|c' t]; [contradiction Ht; reflexivity|].
    injection E as <- _. inversion Hts; assumption.
  - intros init c E. rewrite Hj' in E.
    destruct (exists_last Hz) as (z' & c' & ->).
    rewrite app_assoc in E. apply app_inj_tail in E. destruct E as [_ <-].
    apply Forall_app in Hzs. destruct Hzs as [_ Hc'].
    inversion Hc'; assumption.
Qed.

(** Empty and whitespace-only inputs give no chunk at all. *)
Example chunk_content_blank :
  chunk_content [] = [] /\ chunk_content (u "   ") = [].
Proof. split; reflexivity. Qed.

(** The scenario of the specification: 105 words of which the last ends
    in a full stop, then words without a final full stop, give two
    chunks. *)
Example chunk_content_two_chunks :
  let sentence := repeat (u "word") 104 ++ [u "end."] in
  chunk_content
    (join [SPACE] (sentence ++ [u "Rest"; u "of"; u "text"]))
  = [join [SPACE] sentence; u "Rest of text"].
Proof. vm_compute. reflexivity. Qed.

(** The boundary is the first full stop at or after word 100: a full stop
    at word 99 is passed over and the chunk runs to the one at word 103. *)
Example chunk_content_first_boundary :
  let head := repeat (u "word") 98 ++ [u "early."] in
  let tail := [u "a"; u "b"; u "c"; u "late."] in
  chunk_content (join [SPACE] (head ++ tail ++ [u "rest."]))
  = [join [SPACE] (head ++ tail); u "rest."].
Proof. vm_compute. reflexivity. Qed.

(** Unfolds the monad operations of a run. *)
Ltac run_monad :=
  cbv beta iota delta
    [bind try_except try_finally lift ret raise emit log].

(** ** The enricher: what a run produces *)

Section EnricherFacts.

Variable w : World.

(** The dict that chunk number [i] ends up with. *)
Definition enriched_entry (i : nat) (chunk : str) : dict :=
  match ask_llm w i chunk with
  | Raise _ => unenriched chunk
  | Return llm_response =>
      match enriched_of chunk llm_response with
      | Raise _ => unenriched chunk
      | Return d => d
      end
  end.

(** Whether the [except] clause runs for chunk number [i]. *)
Definition enrich_failed (i : nat) (chunk : str) : bool :=
  match ask_llm w i chunk with
  | Raise _ => true
  | Return llm_response =>
      match enriched_of chunk llm_response with
      | Raise _ => true
      | Return _ => false
      end
  end.

Fixpoint enriched_entries (i : nat) (chunks : list str) : list dict :=
  match chunks with
  | [] => []
  | chunk :: rest => enriched_entry i chunk :: enriched_entries (S i) rest
  end.

Fixpoint enrich_events (i : nat) (chunks : list str) : list Event :=
  match chunks with
  | [] => []
  | chunk :: rest =>
      EvAskLlm i chunk
      :: (if enrich_failed i chunk then [EvLog ERROR] else [])
      ++ enrich_events (S i) rest
  end.

(** The requests to the language model recorded in a trace. *)
Fixpoint llm_calls (tr : list Event) : list (nat * str) :=
  match tr with
  | [] => []
  | EvAskLlm i chunk :: rest => (i, chunk) :: llm_calls rest
  | _ :: rest => llm_calls rest
  end.

(** Chunks with their numbers, counted from [i]. *)
Fixpoint numbered (i : nat) (chunks : list str) : list (nat * str) :=
  match chunks with
  | [] => []
  | chunk :: rest => (i, chunk) :: numbered (S i) rest
  end.

Lemma enrich_loop_run chunks : forall i enriched st,
  enrich_loop w i chunks enriched st =
  (Return (enriched ++ enriched_entries i chunks),
   mkState (rows st) (staged st) (trace st ++ enrich_events i chunks)).
Proof.
  induction chunks as [|chunk rest IH]; intros i enriched st.
  - simpl. unfold ret. rewrite !app_nil_r. destruct st; reflexivity.
  - cbn [enrich_loop enriched_entries enrich_events].
    unfold enriched_entry, enrich_failed, call_llm. run_monad.
    destruct (ask_llm w i chunk) as [llm_response|e];
      [destruct (enriched_of chunk llm_response) as [d|e]|];
      cbv beta iota; rewrite IH; cbn [rows staged trace];
      rewrite <- !app_assoc; reflexivity.
Qed.

Lemma enrich_chunks_with_llm_run chunks st :
  enrich_chunks_with_llm w chunks st =
  (Return (enriched_entries 1 chunks),
   mkState (rows st) (staged st) (trace st ++ enrich_events 1 chunks)).
Proof. unfold enrich_chunks_with_llm. apply enrich_loop_run. Qed.

Lemma enriched_entries_length chunks : forall i,
  length (enriched_entries i chunks) = length chunks.
Proof.
  induction chunks as [|c rest IH]; intros i; simpl; [|rewrite IH];
    reflexivity.
Qed.

Lemma enriched_entries_nth chunks : forall i k chunk,
  nth_error chunks k = Some chunk ->
  nth_error (enriched_entries i chunks) k
  = Some (enriched_entry (i + k) chunk).
Proof.
  induction chunks as [|c rest IH]; intros i [|k] chunk H; try discriminate.
  - injection H as ->. simpl. rewrite Nat.add_0_r. reflexivity.
  - simpl in H. simpl. rewrite (IH (S i) k chunk H).
    replace (S i + k) with (i + S k) by lia. reflexivity.
Qed.

Lemma llm_calls_app a b : llm_calls (a ++ b) = llm_calls a ++ llm_calls b.
Proof.
  induction a as [|ev a IH]; [reflexivity|].
  destruct ev; simpl; rewrite IH; reflexivity.
Qed.

Lemma llm_calls_enrich_events chunks : forall i,
  llm_calls (enrich_events i chunks) = numbered i chunks.
Proof.
  induction chunks as [|c rest IH]; intros i; [reflexivity|].
  cbn [enrich_events llm_calls numbered]. rewrite llm_calls_app, IH.
  destruct (enrich_failed i c); reflexivity.
Qed.

Lemma enriched_entry_content i chunk :
  dict_get (enriched_entry i chunk) K_CONTENT = Some (VStr chunk).
Proof.
  unfold enriched_entry, enriched_of.
  destruct (ask_llm w i chunk) as [r|e]; [|reflexivity].
  destruct (py_get r K_KEYWORDS (VList [])) as [kws|e]; [|reflexivity].
  destruct (py_join [COMMA] kws) as [joined|e]; [|reflexivity].
  destruct (py_get r K_SUMMARY (VStr [])) as [sm|e]; reflexivity.
Qed.

Lemma enriched_entry_failed i chunk :
  enrich_failed i chunk = true -> enriched_entry i chunk = unenriched chunk.
Proof.
  unfold enrich_failed, enriched_entry.
  destruct (ask_llm w i chunk) as [r|e]; [|reflexivity].
  destruct (enriched_of chunk r); [discriminate | reflexivity].
Qed.

End EnricherFacts.

(** ** Comma-separated terms *)

(** The terms of a comma-joined string; the empty string has none. *)
Definition terms (s : str) : list str :=
  match s with
  | [] => []
  | _ :: _ => split_comma s
  end.

Definition comma_free (k : str) : Prop := Forall (fun c => c <> COMMA) k.

Lemma split_comma_from_free k : forall field s,
  comma_free k ->
  split_comma_from field (k ++ s) = split_comma_from (field ++ k) s.
Proof.
  induction k as [|c k IH]; intros field s Hk; simpl.
  - rewrite app_nil_r. reflexivity.
  - inversion Hk as [|? ? Hc Hk']; subst.
    apply N.eqb_neq in Hc. rewrite Hc, IH by assumption.
    rewrite <- app_assoc. reflexivity.
Qed.

Lemma split_comma_join ks : forall field,
  Forall comma_free ks -> ks <> [] ->
  length (split_comma_from field (join [COMMA] ks)) = length ks.
Proof.
  induction ks as [|k rest IH]; intros field Hks Hne;
    [contradiction Hne; reflexivity|].
  inversion Hks as [|? ? Hk Hrest]; subst.
  destruct rest as [|k' rest'].
  - simpl. rewrite <- (app_nil_r k), split_comma_from_free by assumption.
    reflexivity.
  - change (join [COMMA] (k :: k' :: rest'))
      with (k ++ COMMA :: join [COMMA] (k' :: rest')).
    rewrite split_comma_from_free by assumption.
    cbn [split_comma_from]. rewrite N.eqb_refl. cbn [length].
    rewrite IH by (assumption || discriminate). reflexivity.
Qed.

Lemma terms_join ks :
  Forall comma_free ks -> length (terms (join [COMMA] ks)) <= length ks.
Proof.
  intros Hks. destruct ks as [|k rest]; [simpl; lia|].
  unfold terms. destruct (join [COMMA] (k :: rest)) eqn:E; [simpl; lia|].
  rewrite <- E. unfold split_comma.
  rewrite split_comma_join by (assumption || discriminate). lia.
Qed.

(** ** The enricher: properties *)

(** The keywords a well-formed answer carries: the strings of the list
    under ["keywords"], none when the key is missing. *)
Definition response_keywords (d : dict) : option (list str) :=
  match dict_get d K_KEYWORDS with
  | None => Some []
  | Some (VList items) => all_strs items
  | Some _ => None
  end.

Lemma enriched_of_keywords chunk d ks :
  response_keywords d = Some ks ->
  enriched_of chunk (VDict d) =
  Return [(K_CONTENT, VStr chunk);
          (K_KEYWORDS, VStr (join [COMMA] ks));
          (K_SUMMARY, get_default d K_SUMMARY (VStr []))].
Proof.
  unfold response_keywords, enriched_of, py_get, get_default.
  destruct (dict_get d K_KEYWORDS) as [v|].
  - destruct v; try discriminate. intros H. unfold py_join. rewrite H.
    reflexivity.
  - intros [= <-]. reflexivity.
Qed.

(** A world without files whose language model and database follow the
    given functions. *)
Definition world_of (llm : nat -> str -> outcome PyVal)
  (commit_error : option exn) : World :=
  mkWorld (fun _ => Return [])
          (fun _ => Return [Return (Some (u "Some text. More text"))])
          llm
          (fun i => N.of_nat i)
          (fun _ => None)
          (fun _ => commit_error)
          None
          None.

Definition empty_state : State := mkState [] [] [].

(** C1: [enrich_chunks_with_llm] always returns, with one dict per chunk
    in the order of the chunks; the dict of a chunk holds the chunk itself
    under ["content"]; when the call for a chunk raises, or its answer
    cannot be read, its keywords and summary are the empty string; and
    every chunk gets its call, one after the other, whatever happened to
    the chunks before it. *)
Theorem enrich_chunks_with_llm_isolates_failures w chunks st :
  exists enriched st',
    enrich_chunks_with_llm w chunks st = (Return enriched, st')
    /\ length enriched = length chunks
    /\ (forall k chunk,
          nth_error chunks k = Some chunk ->
          exists d,
            nth_error enriched k = Some d
            /\ dict_get d K_CONTENT = Some (VStr chunk)
            /\ ((exists e, ask_llm w (k + 1) chunk = Raise e)
                \/ (exists r e, ask_llm w (k + 1) chunk = Return r
                                /\ enriched_of chunk r = Raise e) ->
                dict_get d K_KEYWORDS = Some (VStr [])
                /\ dict_get d K_SUMMARY = Some (VStr [])))
    /\ llm_calls (trace st') = llm_calls (trace st) ++ numbered 1 chunks
    /\ rows st' = rows st.
Proof.
  eexists. eexists. split; [apply enrich_chunks_with_llm_run|].
  split; [apply enriched_entries_length|]. split; [|split].
  - intros k chunk Hk. exists (enriched_entry w (1 + k) chunk).
    split; [apply enriched_entries_nth, Hk|].
    split; [apply enriched_entry_content|].
    replace (k + 1) with (1 + k) by lia. intros Hfail.
    rewrite enriched_entry_failed; [split; reflexivity|].
    unfold enrich_failed.
    destruct Hfail as [[e He] | (r & e & Hr & He)].
    + rewrite He. reflexivity.
    + rewrite Hr, He. reflexivity.
  - cbn [trace]. rewrite llm_calls_app, llm_calls_enrich_events.
    reflexivity.
  - reflexivity.
Qed.

(** The scenario of the specification: the service throws for chunk 2 of
    3; the list has length 3 and only chunk 2 has empty fields. *)
Definition llm_fails_on_second (i : nat) (chunk : str) : outcome PyVal :=
  if i =? 2 then Raise (OtherException 0)
  else Return (VDict [(K_KEYWORDS, VList [VStr (u "a"); VStr (u "b");
                                           VStr (u "c")]);
                      (K_SUMMARY, VStr (u "about"))]).

Example enrich_second_of_three_fails :
  fst (enrich_chunks_with_llm (world_of llm_fails_on_second None)
         [u "one"; u "two"; u "three"] empty_state)
  = Return
      [[(K_CONTENT, VStr (u "one")); (K_KEYWORDS, VStr (u "a,b,c"));
        (K_SUMMARY, VStr (u "about"))];
       [(K_CONTENT, VStr (u "two")); (K_KEYWORDS, VStr []);
        (K_SUMMARY, VStr [])];
       [(K_CONTENT, VStr (u "three")); (K_KEYWORDS, VStr (u "a,b,c"));
        (K_SUMMARY, VStr (u "about"))]].
Proof. reflexivity. Qed.

(** A language model that answers with four keywords. *)
Definition llm_four_keywords (i : nat) (chunk : str) : outcome PyVal :=
  Return (VDict [(K_KEYWORDS, VList [VStr (u "a"); VStr (u "b");
                                     VStr (u "c"); VStr (u "d")]);
                 (K_SUMMARY, VStr (u "about"))]).

(** A language model that answers with three keywords, one of which
    holds a comma. *)
Definition llm_comma_keyword (i : nat) (chunk : str) : outcome PyVal :=
  Return (VDict [(K_KEYWORDS, VList [VStr (u "fast,cheap"); VStr (u "b");
                                     VStr (u "c")]);
                 (K_SUMMARY, VStr (u "about"))]).

(** C9, as stated, fails: the enricher joins whatever list the answer
    holds.  A successful answer with four keywords gives a keywords field
    of four terms, and so does an answer with three keywords of which one
    holds a comma. *)
Lemma enrich_keeps_four_keywords :
  (exists r, ask_llm (world_of llm_four_keywords None) 1 (u "text")
             = Return r)
  /\ fst (enrich_chunks_with_llm (world_of llm_four_keywords None)
            [u "text"] empty_state)
     = Return [[(K_CONTENT, VStr (u "text"));
                (K_KEYWORDS, VStr (u "a,b,c,d"));
                (K_SUMMARY, VStr (u "about"))]]
  /\ length (terms (u "a,b,c,d")) = 4
  /\ fst (enrich_chunks_with_llm (world_of llm_comma_keyword None)
            [u "text"] empty_state)
     = Return [[(K_CONTENT, VStr (u "text"));
                (K_KEYWORDS, VStr (u "fast,cheap,b,c"));
                (K_SUMMARY, VStr (u "about"))]]
  /\ length (terms (u "fast,cheap,b,c")) = 4.
Proof.
  split; [eexists; reflexivity|]. repeat split; reflexivity.
Qed.

(** C9, amended: when the call for a chunk succeeds with a dict whose
    ["keywords"] entry is a list of strings (or is missing), the keywords
    field of the enriched chunk is that list joined with commas, nothing
    removed; it has at most 3 comma-separated terms when the list has at
    most 3 strings and none of them contains a comma. *)
Theorem enrich_keywords_joined w chunks st k chunk d ks :
  nth_error chunks k = Some chunk ->
  ask_llm w (k + 1) chunk = Return (VDict d) ->
  response_keywords d = Some ks ->
  exists enriched st' e,
    enrich_chunks_with_llm w chunks st = (Return enriched, st')
    /\ nth_error enriched k = Some e
    /\ dict_get e K_KEYWORDS = Some (VStr (join [COMMA] ks))
    /\ (length ks <= 3 -> Forall comma_free ks ->
        length (terms (join [COMMA] ks)) <= 3).
Proof.
  intros Hk Hllm Hks.
  exists (enriched_entries w 1 chunks). eexists.
  exists (enriched_entry w (1 + k) chunk).
  split; [apply enrich_chunks_with_llm_run|].
  split; [apply enriched_entries_nth, Hk|]. split.
  - unfold enriched_entry. replace (1 + k) with (k + 1) by lia.
    rewrite Hllm, (enriched_of_keywords chunk d ks Hks). reflexivity.
  - intros Hlen Hfree. pose proof (terms_join ks Hfree). lia.
Qed.

Lemma enrich_keywords_joined_witness :
  exists enriched st' e,
    enrich_chunks_with_llm (world_of llm_fails_on_second None)
      [u "one"; u "two"; u "three"] empty_state = (Return enriched, st')
    /\ nth_error enriched 2 = Some e
    /\ dict_get e K_KEYWORDS
       = Some (VStr (join [COMMA] [u "a"; u "b"; u "c"]))
    /\ (length [u "a"; u "b"; u "c"] <= 3 ->
        Forall comma_free [u "a"; u "b"; u "c"] ->
        length (terms (join [COMMA] [u "a"; u "b"; u "c"])) <= 3).
Proof.
  apply (enrich_keywords_joined (world_of llm_fails_on_second None)
           [u "one"; u "two"; u "three"] empty_state 2 (u "three")
           [(K_KEYWORDS, VList [VStr (u "a"); VStr (u "b"); VStr (u "c")]);
            (K_SUMMARY, VStr (u "about"))]
           [u "a"; u "b"; u "c"]); reflexivity.
Defined.

(** ** The persister: what a run produces *)

Section PersisterFacts.

Variable w : World.
Variables document_name role : PyVal.

(** The record built for [item], the [k]-th enriched chunk counted from
    0, once its content is known. *)
Definition row_of (k : nat) (item : dict) (content : PyVal)
  : Models.DocumentData :=
  Models.mkDocumentData (uuid4 w k) document_name role (k + 1) content
    (get_default item K_KEYWORDS (VStr []))
    (get_default item K_SUMMARY (VStr [])).

Lemma db_chunks_from_spec enriched : forall i,
  match db_chunks_from w i enriched document_name role with
  | Return records =>
      length records = length enriched
      /\ forall k item,
           nth_error enriched k = Some item ->
           exists content,
             dict_get item K_CONTENT = Some content
             /\ nth_error records k = Some (row_of (i + k) item content)
  | Raise e =>
      e = KeyError K_CONTENT
      /\ exists item, In item enriched /\ dict_get item K_CONTENT = None
  end.
Proof.
  induction enriched as [|item rest IH]; intros i.
  - simpl. split; [reflexivity|]. intros [|k] item H; discriminate.
  - cbn [db_chunks_from]. unfold getitem.
    destruct (dict_get item K_CONTENT) as [content|] eqn:Ec.
    + specialize (IH (S i)).
      destruct (db_chunks_from w (S i) rest document_name role)
        as [others|e].
      * destruct IH as [Hlen Hnth]. split; [simpl; rewrite Hlen; reflexivity|].
        intros [|k] item' H.
        -- injection H as <-. exists content. split; [assumption|].
           rewrite Nat.add_0_r. reflexivity.
        -- simpl in H. destruct (Hnth k item' H) as (c & Hc & Hr).
           exists c. split; [assumption|]. simpl.
           replace (i + S k) with (S i + k) by lia. exact Hr.
      * destruct IH as [He (item' & Hin & Hnone)]. split; [assumption|].
        exists item'. split; [right; assumption | assumption].
    + split; [reflexivity|]. exists item. split; [left; reflexivity|].
      assumption.
Qed.


(** The calls of the [except] clause and of [finally], once something
    has reached the session: the log is skipped when the rollback
    raises. *)
Definition cleanup_events : list Event :=
  EvRollback
  :: match rollback_fault w with
     | Some _ => [EvClose]
     | None => [EvLog ERROR; EvClose]
     end.

(** The calls of one run of [store_chunks_in_db], by what fails first. *)
Definition store_events (enriched : list dict) : list Event :=
  match db_chunks w enriched document_name role with
  | Raise _ => [EvSession; EvRollback; EvLog ERROR; EvClose]
  | Return records =>
      EvSession :: EvAddAll records
      :: match add_all_fault w records with
         | Some _ => cleanup_events
         | None =>
             EvCommit
             :: match commit_fault w records with
                | Some _ => cleanup_events
                | None => [EvClose]
                end
         end
  end.

(** The failure of the [try] body, if any. *)
Definition store_failure (enriched : list dict) : option exn :=
  match db_chunks w enriched document_name role with
  | Raise e => Some e
  | Return records =>
      match add_all_fault w records with
      | Some e => Some e
      | None => commit_fault w records
      end
  end.


(** What the caller of [store_chunks_in_db] gets.  A failure of the
    body before anything reached the session is raised as it is; after
    that, an exception of [close] or else of [rollback] takes the place of
    the failure of the body. *)
Definition store_result (enriched : list dict) : outcome unit :=
  match db_chunks w enriched document_name role with
  | Raise e => Raise e
  | Return _ =>
      match close_fault w, store_failure enriched with
      | Some e3, _ => Raise e3
      | None, None => Return tt
      | None, Some e =>
          match rollback_fault w with
          | Some e2 => Raise e2
          | None => Raise e
          end
      end
  end.

(** The visible rows after a run. *)
Definition store_rows (enriched : list dict) (st : State)
  : list Models.DocumentData :=
  match store_failure enriched, db_chunks w enriched document_name role with
  | None, Return records => rows st ++ records
  | _, _ => rows st
  end.

Lemma session_used_snoc tr ev :
  session_used_from (rev (tr ++ [ev]))
  = match ev with
    | EvSession => false
    | EvAddAll _ => true
    | EvCommit => true
    | _ => session_used_from (rev tr)
    end.
Proof. rewrite rev_unit. destruct ev; reflexivity. Qed.

(** Runs the session calls of a goal. *)
Ltac session_run :=
  repeat first [ progress cbv beta iota
               | progress cbn [rows staged trace]
               | rewrite session_used_snoc ].

Lemma store_chunks_in_db_run enriched st :
  store_chunks_in_db w enriched document_name role st =
  (store_result enriched,
   mkState (store_rows enriched st) [] (trace st ++ store_events enriched)).
Proof.
  unfold store_chunks_in_db, store_body, store_result, store_rows,
    store_failure, store_events, cleanup_events,
    session_local, add_all, commit, rollback, close, session_used.
  run_monad.
  destruct (db_chunks w enriched document_name role) as [records|e].
  - cbn [rows staged trace app].
    destruct (add_all_fault w records) as [e|].
    + destruct e; session_run;
        destruct (rollback_fault w) as [e2|]; session_run;
        destruct (close_fault w) as [e3|]; session_run;
        rewrite <- ?app_assoc; reflexivity.
    + cbn [rows staged trace app].
      destruct (commit_fault w records) as [e|].
      * destruct e; session_run;
          destruct (rollback_fault w) as [e2|]; session_run;
          destruct (close_fault w) as [e3|]; session_run;
          rewrite <- ?app_assoc; reflexivity.
      * session_run. destruct (close_fault w) as [e3|]; session_run;
          rewrite <- ?app_assoc; reflexivity.
  - destruct e; session_run; rewrite <- ?app_assoc; reflexivity.
Qed.


End PersisterFacts.

(** ** The persister: properties *)





(** The scenario of the specification: the commit fails; no row is
    visible afterwards and the failure reaches the caller. *)
Example store_commit_fails :
  let run :=
    store_chunks_in_db (world_of llm_fails_on_second
                          (Some (SQLAlchemyError 1)))
      [unenriched (u "one"); unenriched (u "two")]
      (VStr (u "doc")) ANALYST empty_state in
  fst run = Raise (SQLAlchemyError 1) /\ rows (snd run) = [].
Proof. split; reflexivity. Qed.

(** C8: the records that [store_chunks_in_db] builds and hands to
    [db.add_all] are one per enriched chunk, in the order of the chunks,
    and the record of the chunk at index [k] (counted from 0) has
    [chunk_number = k + 1], whatever the chunk holds.  No record is built
    only when a chunk has no ["content"] key, which is a [KeyError]. *)
Theorem store_chunks_in_db_numbers_rows w enriched document_name role :
  match db_chunks w enriched document_name role with
  | Return records =>
      length records = length enriched
      /\ (forall k item,
            nth_error enriched k = Some item ->
            exists r,
              nth_error records k = Some r
              /\ Models.chunk_number r = k + 1
              /\ dict_get item K_CONTENT = Some (Models.chunk_content r))
      /\ (forall st,
            In (EvAddAll records)
               (trace (snd (store_chunks_in_db w enriched document_name role
                              st))))
  | Raise e =>
      e = KeyError K_CONTENT
      /\ exists item, In item enriched /\ dict_get item K_CONTENT = None
  end.
Proof.
  pose proof (db_chunks_from_spec w document_name role enriched 0) as S.
  pose proof (store_chunks_in_db_run w document_name role enriched) as R.
  unfold store_events in R. fold (db_chunks w enriched document_name role) in S.
  destruct (db_chunks w enriched document_name role) as [records|e];
    [|exact S].
  destruct S as [Hlen Hnth]. split; [assumption|]. split.
  - intros k item Hk. destruct (Hnth k item Hk) as (content & Hc & Hr).
    eexists. split; [exact Hr|]. split; [reflexivity | exact Hc].
  - intros st. rewrite R. cbn [snd trace]. apply in_or_app. right.
    destruct (add_all_fault w records);
      [|destruct (commit_fault w records)]; simpl; auto.
Qed.

(** Numbers that the chunks carry are not looked at. *)
Example db_chunks_renumbers :
  match db_chunks (world_of llm_fails_on_second None)
          [[(u "chunk_number", VInt 7); (K_CONTENT, VStr (u "one"))];
           [(u "chunk_number", VInt 3); (K_CONTENT, VStr (u "two"))]]
          (VStr (u "doc")) ANALYST with
  | Return records => map Models.chunk_number records = [1; 2]
  | Raise _ => False
  end.
Proof. reflexivity. Qed.

(** ** The orchestrator *)

Lemma message_fields_raises message e :
  message_fields message = Raise e -> exists key, e = KeyError key.
Proof.
  unfold message_fields, getitem.
  destruct (dict_get message K_FILE_PATH);
    [destruct (dict_get message K_ORIGINAL_NAME)|]; intros [= <-];
    eexists; reflexivity.
Qed.

(** Every path through [process_fields] returns, and its last call is a
    log. *)
Lemma process_fields_returns w file_path original_name role st :
  exists st' level,
    process_fields w file_path original_name role st = (Return tt, st')
    /\ last (trace st') EvSession = EvLog level.
Proof.
  unfold process_fields. run_monad. cbn [rows staged trace].
  destruct (read_file_content w file_path _) as [[content|e] st1].
  - cbn [rows staged trace].
    destruct (chunk_content content) as [|c cs].
    + eexists. eexists. split; [reflexivity|]. cbn [trace]. apply last_last.
    + rewrite enrich_chunks_with_llm_run, store_chunks_in_db_run.
      destruct (store_result _ _ _ _); cbn [rows staged trace];
        eexists; eexists; (split; [reflexivity|]); cbn [trace];
        apply last_last.
  - eexists. eexists. split; [reflexivity|]. cbn [trace]. apply last_last.
Qed.

(** C6, as stated, fails: in this run the commit fails, the persister
    rolls back and raises the failure, and [process_document] catches it,
    logs it and returns. *)
Definition failing_commit_world : World :=
  world_of llm_fails_on_second (Some (SQLAlchemyError 1)).

Definition sample_message : dict :=
  [(K_FILE_PATH, VStr (u "/data/report.pdf"));
   (K_ORIGINAL_NAME, VStr (u "report.pdf"))].

Lemma process_document_catches_storage_failure :
  fst (process_document failing_commit_world sample_message empty_state)
  = Return tt
  /\ trace (snd (process_document failing_commit_world sample_message
                   empty_state))
     = [EvLog INFO; EvOpen (VStr (u "/data/report.pdf")); EvLog INFO;
        EvLog INFO; EvAskLlm 1 (u "Some text. More text"); EvLog INFO;
        EvSession;
        EvAddAll [Models.mkDocumentData 0 (VStr (u "report.pdf")) ANALYST 1
                    (VStr (u "Some text. More text"))
                    (VStr (u "a,b,c")) (VStr (u "about"))];
        EvCommit; EvRollback; EvLog ERROR; EvClose; EvLog ERROR]
  /\ fst (store_chunks_in_db failing_commit_world
            [[(K_CONTENT, VStr (u "Some text. More text"));
              (K_KEYWORDS, VStr (u "a,b,c"));
              (K_SUMMARY, VStr (u "about"))]]
            (VStr (u "report.pdf")) ANALYST empty_state)
     = Raise (SQLAlchemyError 1).
Proof. split; [|split]; reflexivity. Qed.

(** C6, amended: no failure leaves [process_document] as a raised
    exception.  Whatever the message and whatever the file system, the
    language model and the database do, [process_document] returns
    normally, and the last thing it does is to log.  A storage failure is
    raised by [store_chunks_in_db] to [process_document], which catches
    it like the others. *)
Theorem process_document_never_raises w message st :
  exists st' level,
    process_document w message st = (Return tt, st')
    /\ last (trace st') EvSession = EvLog level.
Proof.
  unfold process_document.
  destruct (message_fields message) as [[[file_path original_name] role]|e]
    eqn:E.
  - apply process_fields_returns.
  - destruct (message_fields_raises _ _ E) as [key ->].
    eexists. eexists. split; [reflexivity|]. cbn [trace]. apply last_last.
Qed.

(** C7: a message without ["file_path"] or without ["original_name"]
    makes [process_document] log one error and return: no file is opened,
    the language model is not called, no session is opened and the rows
    stay as they are.  With both keys and without ["role_required"], the
    run is the run of the rest of the function with role ["Analyst"]. *)
Theorem process_document_validates_message w message st :
  (dict_get message K_FILE_PATH = None
   \/ dict_get message K_ORIGINAL_NAME = None ->
   process_document w message st
   = (Return tt, mkState (rows st) (staged st) (trace st ++ [EvLog ERROR])))
  /\ (forall file_path original_name,
        dict_get message K_FILE_PATH = Some file_path ->
        dict_get message K_ORIGINAL_NAME = Some original_name ->
        dict_get message K_ROLE_REQUIRED = None ->
        process_document w message st
        = process_fields w file_path original_name
            (VStr (u "Analyst")) st).
Proof.
  unfold process_document, message_fields, getitem, get_default. split.
  - intros [H|H].
    + rewrite H. reflexivity.
    + rewrite H. destruct (dict_get message K_FILE_PATH); reflexivity.
  - intros file_path original_name Hf Hn Hr. rewrite Hf, Hn, Hr.
    reflexivity.
Qed.

Lemma process_document_validates_message_witness :
  process_document failing_commit_world
    [(K_ORIGINAL_NAME, VStr (u "report.pdf"))] empty_state
  = (Return tt, mkState [] [] [EvLog ERROR])
  /\ process_document failing_commit_world sample_message empty_state
     = process_fields failing_commit_world (VStr (u "/data/report.pdf"))
         (VStr (u "report.pdf")) (VStr (u "Analyst")) empty_state.
Proof.
  split.
  - apply (proj1 (process_document_validates_message failing_commit_world
                    [(K_ORIGINAL_NAME, VStr (u "report.pdf"))]
                    empty_state)).
    left. reflexivity.
  - apply (proj2 (process_document_validates_message failing_commit_world
                    sample_message empty_state)); reflexivity.
Defined.

(** ** The chunker: further properties *)

Section ChunkerMore.

Lemma split_from_nil s : forall word,
  split_from word s = [] <->
  word = [] /\ Forall (fun c => isspace c = true) s.
Proof.
  induction s as [|c rest IH]; intros word; cbn [split_from].
  - destruct word; simpl; split.
    + intros _. split; [reflexivity | constructor].
    + reflexivity.
    + discriminate.
    + intros [H _]. discriminate.
  - destruct (isspace c) eqn:Ec.
    + split.
      * intros H. apply app_eq_nil in H. destruct H as [Hw Hr].
        apply IH in Hr. destruct Hr as [_ Hr].
        split; [destruct word; [reflexivity | discriminate]|].
        constructor; assumption.
      * intros [-> H]. inversion H; subst. simpl. apply IH.
        split; [reflexivity | assumption].
    + rewrite IH. split.
      * intros [H _]. destruct word; discriminate.
      * intros [_ H]. inversion H; subst. congruence.
Qed.

Lemma chunk_content_nil_tokens content :
  chunk_content content = [] <-> split content = [].
Proof.
  destruct (chunk_content_groups content)
    as (groups & Hc & Hcat & _ & Hne & _).
  rewrite Hc, <- Hcat. split.
  - intros H. apply map_eq_nil in H. rewrite H. reflexivity.
  - intros H. destruct groups as [|g gs]; [reflexivity|].
    inversion Hne; subst. simpl in H. apply app_eq_nil in H.
    destruct H as [H _]. contradiction.
Qed.

Lemma full_groups_length gs :
  Forall full_group gs -> MIN_WORDS * length gs <= length (concat gs).
Proof.
  unfold MIN_WORDS.
  induction 1 as [|g gs [Hg _] _ IH]; cbn [concat length]; [lia|].
  rewrite length_app. unfold MIN_WORDS in Hg. lia.
Qed.

Lemma nonempty_groups_length (gs : list (list str)) :
  Forall (fun g => g <> []) gs -> length gs <= length (concat gs).
Proof.
  induction 1 as [|g gs Hg _ IH]; simpl; [lia|].
  rewrite length_app. destruct g; [contradiction Hg; reflexivity|].
  simpl. lia.
Qed.

Lemma removelast_length {A} (l : list A) :
  length (removelast l) = length l - 1.
Proof.
  induction l as [|x l IH]; [reflexivity|].
  destruct l as [|y l]; [reflexivity|].
  change (S (length (removelast (y :: l))) = S (length (y :: l)) - 1).
  rewrite IH. simpl. lia.
Qed.

Lemma concat_removelast_length (gs : list (list str)) :
  length (concat (removelast gs)) <= length (concat gs).
Proof.
  destruct gs as [|g gs]; [reflexivity|].
  rewrite (app_removelast_last [] (l := g :: gs)) at 2 by discriminate.
  rewrite concat_app, length_app. lia.
Qed.

(** Each group that [greedy_groups] cuts is cut as one group when it is
    scanned alone. *)
Lemma greedy_groups_stable tokens :
  Forall (fun g => greedy_groups g = [g]) (greedy_groups tokens).
Proof.
  apply (greedy_groups_cases
           (fun _ gs => Forall (fun g => greedy_groups g = [g]) gs)).
  - constructor.
  - intros ts Hne Hnone. constructor; [|constructor].
    rewrite greedy_groups_eq, Hnone. destruct ts; [contradiction Hne|];
      reflexivity.
  - intros ts p E IH. constructor; [|assumption].
    pose proof (boundary_from_bounds _ _ _ E) as Hb.
    assert (Hlen : length (firstn p ts) = p)
      by (rewrite length_firstn; lia).
    assert (Hg : first_boundary (firstn p ts) = Some p).
    { unfold first_boundary in *.
      rewrite <- (firstn_skipn p ts), boundary_from_app in E.
      destruct (boundary_from 1 (firstn p ts)) as [q|]; [exact E|].
      apply boundary_from_bounds in E. lia. }
    rewrite greedy_groups_eq, Hg.
    rewrite firstn_all2, skipn_all2 by lia.
    rewrite greedy_groups_eq. reflexivity.
Qed.

End ChunkerMore.

(** X1: [chunk_content] returns no chunk exactly when the text holds no
    word, that is when every character of it is whitespace (the empty
    text included). *)
Theorem chunk_content_empty_iff_blank content :
  chunk_content content = [] <-> Forall (fun c => isspace c = true) content.
Proof.
  rewrite chunk_content_nil_tokens. unfold split.
  rewrite split_from_nil. split; [intros [_ H] | intros H; split]; auto.
Qed.

(** X2: a text that holds at least one word, and either fewer than 100
    words or no word ending in a full stop, comes back as one chunk: its
    words joined with single spaces. *)
Theorem chunk_content_single_chunk content :
  split content <> [] ->
  length (split content) < 100
  \/ Forall (fun word => endswith_dot word = false) (split content) ->
  chunk_content content = [join [SPACE] (split content)].
Proof.
  intros Hne Hcase. rewrite chunk_content_greedy. unfold greedy_chunks.
  assert (Hnone : first_boundary (split content) = None).
  { apply boundary_from_none. intros q word Hq Hm Hn.
    destruct Hcase as [Hshort | Hdots].
    - assert (q - 1 < length (split content))
        by (apply nth_error_Some; congruence).
      unfold MIN_WORDS in Hm. lia.
    - apply nth_error_In in Hn. rewrite Forall_forall in Hdots.
      apply Hdots, Hn. }
  rewrite greedy_groups_eq, Hnone.
  destruct (split content) as [|t ts] eqn:E; [contradiction Hne; reflexivity|].
  simpl map. rewrite seal_join; [reflexivity|].
  rewrite <- E. apply split_tokens.
Qed.

Lemma chunk_content_single_chunk_witness :
  chunk_content (u "No full stop here") = [u "No full stop here"].
Proof.
  apply (chunk_content_single_chunk (u "No full stop here")).
  - discriminate.
  - left. vm_compute. lia.
Defined.

(** X3: the chunks are at most as many as the words of the text, and all
    of them but one account for 100 words each: a text of [n] words gives
    at most [n / 100 + 1] chunks. *)
Theorem chunk_content_count content :
  length (chunk_content content) <= length (split content)
  /\ 100 * (length (chunk_content content) - 1) <= length (split content).
Proof.
  destruct (chunk_content_groups content)
    as (groups & Hc & Hcat & _ & Hne & Hfull).
  rewrite Hc, length_map, <- Hcat. split.
  - apply nonempty_groups_length, Hne.
  - apply full_groups_length in Hfull. rewrite removelast_length in Hfull.
    pose proof (concat_removelast_length groups). unfold MIN_WORDS in Hfull.
    lia.
Qed.

(** X4: chunking is stable: every chunk that [chunk_content] returns is
    itself chunked into that one chunk, unchanged. *)
Theorem chunk_content_rechunk content :
  Forall (fun chunk => chunk_content chunk = [chunk])
         (chunk_content content).
Proof.
  rewrite (chunk_content_greedy content). unfold greedy_chunks.
  apply Forall_map.
  pose proof (greedy_groups_tokens _ (split_tokens content)) as Htok.
  pose proof (greedy_groups_stable (split content)) as Hst.
  revert Htok Hst. generalize (greedy_groups (split content)) as gs.
  induction gs as [|g gs IH]; intros Htok Hst; [constructor|].
  inversion Htok; inversion Hst; subst.
  constructor; [|apply IH; assumption].
  rewrite chunk_content_greedy. unfold greedy_chunks.
  rewrite split_seal by assumption.
  match goal with H : greedy_groups g = [g] |- _ => rewrite H end.
  reflexivity.
Qed.

(** ** The reader *)

Section ReaderFacts.

Variable w : World.

(** What [read_file_content] returns or raises for a path. *)
Definition read_result (file_path : PyVal) : outcome str :=
  match file_bytes w file_path with
  | Raise e => Raise e
  | Return data =>
      match pdf_pages w data with
      | Raise e => Raise e
      | Return pages =>
          match page_texts pages with
          | Raise e => Raise e
          | Return texts => Return (join [NEWLINE] texts)
          end
      end
  end.

Definition read_events (file_path : PyVal) : list Event :=
  EvOpen file_path
  :: match read_result file_path with
     | Raise _ => [EvLog ERROR]
     | Return _ => []
     end.

Lemma read_file_content_run file_path st :
  read_file_content w file_path st =
  (read_result file_path,
   mkState (rows st) (staged st) (trace st ++ read_events file_path)).
Proof.
  unfold read_file_content, read_events, read_result. run_monad.
  cbn [rows staged trace].
  destruct (file_bytes w file_path) as [data|e].
  - destruct (pdf_pages w data) as [pages|e].
    + destruct (page_texts pages) as [texts|e]; cbn [rows staged trace];
        rewrite <- ?app_assoc; reflexivity.
    + cbn [rows staged trace]. rewrite <- app_assoc. reflexivity.
  - destruct e; cbn [rows staged trace]; rewrite <- app_assoc; reflexivity.
Qed.

(** The text a page contributes: what [extract_text()] gave, or nothing. *)
Definition page_or_empty (page : outcome (option str)) : str :=
  match page with
  | Return (Some text) => text
  | _ => []
  end.

Lemma page_texts_all_return pages :
  Forall (fun page => exists t, page = Return t) pages ->
  page_texts pages = Return (map page_or_empty pages).
Proof.
  induction 1 as [|page rest [t ->] _ IH]; [reflexivity|].
  cbn [page_texts map]. rewrite IH. destruct t; reflexivity.
Qed.

Lemma split_from_app_space a : forall word c b,
  isspace c = true ->
  split_from word (a ++ c :: b) = split_from word a ++ split b.
Proof.
  induction a as [|x a IH]; intros word c b Hc; cbn [app split_from].
  - rewrite Hc. reflexivity.
  - destruct (isspace x).
    + rewrite IH by assumption. apply app_assoc.
    + apply IH, Hc.
Qed.

Lemma isspace_NEWLINE : isspace NEWLINE = true.
Proof. reflexivity. Qed.

End ReaderFacts.

(** X5: when the file can be read and parsed and every page gives its
    text, [read_file_content] returns the texts of the pages in page
    order, joined with newlines, a page without text counting as the empty
    string; it opens the file once, logs nothing and leaves the database
    alone. *)
Theorem read_file_content_joins_pages w file_path st data pages :
  file_bytes w file_path = Return data ->
  pdf_pages w data = Return pages ->
  Forall (fun page => exists t, page = Return t) pages ->
  read_file_content w file_path st
  = (Return (join [NEWLINE] (map page_or_empty pages)),
     mkState (rows st) (staged st) (trace st ++ [EvOpen file_path])).
Proof.
  intros Hf Hp Hpages. rewrite read_file_content_run.
  unfold read_events, read_result.
  rewrite Hf, Hp, (page_texts_all_return pages Hpages). reflexivity.
Qed.

(** A file of three pages, the second without text. *)
Definition three_page_world : World :=
  mkWorld (fun _ => Return [])
          (fun _ => Return [Return (Some (u "first page"));
                            Return None;
                            Return (Some (u "third page"))])
          llm_fails_on_second
          (fun i => N.of_nat i)
          (fun _ => None)
          (fun _ => None)
          None
          None.

Lemma read_file_content_joins_pages_witness :
  read_file_content three_page_world (VStr (u "/data/report.pdf"))
    empty_state
  = (Return (u "first page" ++ [NEWLINE] ++ [NEWLINE] ++ u "third page"),
     mkState [] [] [EvOpen (VStr (u "/data/report.pdf"))]).
Proof.
  apply (read_file_content_joins_pages three_page_world
           (VStr (u "/data/report.pdf")) empty_state []
           [Return (Some (u "first page")); Return None;
            Return (Some (u "third page"))]).
  - reflexivity.
  - reflexivity.
  - repeat constructor; eexists; reflexivity.
Defined.

(** Pages are read in order: the exception of the first page whose
    [extract_text()] raises is the one that comes out, whatever the pages
    after it do. *)
Lemma page_texts_first_failure before e after :
  Forall (fun page => exists t, page = Return t) before ->
  page_texts (before ++ Raise e :: after) = Raise e.
Proof.
  induction 1 as [|page rest [t ->] _ IH]; [reflexivity|].
  cbn [app page_texts]. rewrite IH. destruct t; reflexivity.
Qed.

(** Two pages fail: the exception of the first of them comes out. *)
Example page_texts_two_failures :
  page_texts [Return (Some (u "one")); Raise (OtherException 1);
              Raise (OtherException 2)]
  = Raise (OtherException 1).
Proof. reflexivity. Qed.

(** X6: [read_file_content] opens the file once and never touches the
    database.  When it fails it logs exactly one error and raises the
    exception that made it fail: the one of opening or reading the file,
    of parsing the PDF, or of the first page whose text extraction fails
    (every page before it having given its text, whatever the pages after
    it would do).  When it succeeds it logs nothing. *)
Theorem read_file_content_reraises w file_path st :
  exists result events,
    read_file_content w file_path st
    = (result,
       mkState (rows st) (staged st)
         (trace st ++ EvOpen file_path :: events))
    /\ match result with
       | Raise _ => events = [EvLog ERROR]
       | Return _ => events = []
       end
    /\ (forall e, file_bytes w file_path = Raise e -> result = Raise e)
    /\ (forall data e,
          file_bytes w file_path = Return data ->
          pdf_pages w data = Raise e -> result = Raise e)
    /\ (forall data before e after,
          file_bytes w file_path = Return data ->
          pdf_pages w data = Return (before ++ Raise e :: after) ->
          Forall (fun page => exists t, page = Return t) before ->
          result = Raise e).
Proof.
  exists (read_result w file_path).
  exists (match read_result w file_path with
          | Raise _ => [EvLog ERROR]
          | Return _ => []
          end).
  split; [apply read_file_content_run|]. unfold read_result.
  split; [|split; [|split]].
  - destruct (file_bytes w file_path) as [data|]; [|reflexivity].
    destruct (pdf_pages w data) as [pages|]; [|reflexivity].
    destruct (page_texts pages); reflexivity.
  - intros e ->. reflexivity.
  - intros data e -> ->. reflexivity.
  - intros data before e after -> -> Hbefore.
    rewrite (page_texts_first_failure before e after Hbefore). reflexivity.
Qed.

(** X7: joining the page texts with newlines keeps the words of the pages
    apart: the words of the joined text are the words of the first page,
    then those of the second, and so on; no word runs across a page
    break. *)
Theorem page_break_separates_words texts :
  split (join [NEWLINE] texts) = concat (map split texts).
Proof.
  induction texts as [|t rest IH]; [reflexivity|].
  destruct rest as [|t' rest'].
  - simpl. rewrite app_nil_r. reflexivity.
  - change (join [NEWLINE] (t :: t' :: rest'))
      with (t ++ NEWLINE :: join [NEWLINE] (t' :: rest')).
    unfold split at 1.
    rewrite split_from_app_space by apply isspace_NEWLINE.
    rewrite IH. reflexivity.
Qed.

(** ** The enricher and the persister together *)

Section EnrichedShape.

Variable w : World.

(** The three entries of an enriched chunk. *)
Definition enriched_shape (chunk : str) (d : dict) : Prop :=
  exists kw sm,
    d = [(K_CONTENT, VStr chunk); (K_KEYWORDS, VStr kw); (K_SUMMARY, sm)].

Lemma enriched_entry_shape i chunk :
  enriched_shape chunk (enriched_entry w i chunk).
Proof.
  unfold enriched_shape, enriched_entry, enriched_of, unenriched.
  destruct (ask_llm w i chunk) as [r|e]; [|eexists; eexists; reflexivity].
  destruct (py_get r K_KEYWORDS (VList [])) as [kws|e];
    [|eexists; eexists; reflexivity].
  destruct (py_join [COMMA] kws) as [joined|e];
    [|eexists; eexists; reflexivity].
  destruct (py_get r K_SUMMARY (VStr [])) as [sm|e];
    eexists; eexists; reflexivity.
Qed.

Lemma enriched_entries_shape chunks : forall i,
  Forall2 enriched_shape chunks (enriched_entries w i chunks).
Proof.
  induction chunks as [|c rest IH]; intros i; constructor.
  - apply enriched_entry_shape.
  - apply IH.
Qed.

Variable w' : World.
Variables document_name role : PyVal.

(** Records can always be built from dicts of the enricher's shape. *)
Lemma db_chunks_from_shaped chunks : forall enriched j,
  Forall2 enriched_shape chunks enriched ->
  exists records,
    db_chunks_from w' j enriched document_name role = Return records
    /\ map Models.chunk_content records = map VStr chunks
    /\ map Models.chunk_number records = seq (j + 1) (length chunks)
    /\ Forall (fun r => Models.document_name r = document_name
                        /\ Models.role r = role
                        /\ exists kw, Models.keywords r = VStr kw)
              records.
Proof.
  induction chunks as [|c rest IH]; intros enriched j H;
    inversion H as [|? d ? ds (kw & sm & ->) Hrest]; subst.
  - exists []. repeat split; constructor.
  - destruct (IH ds (S j) Hrest) as (records & Hr & Hc & Hn & Hf).
    cbn [db_chunks_from].
    change (getitem [(K_CONTENT, VStr c); (K_KEYWORDS, VStr kw);
                     (K_SUMMARY, sm)] K_CONTENT) with (Return (VStr c)).
    rewrite Hr. eexists. split; [reflexivity|].
    cbn [map Models.chunk_content Models.chunk_number length seq].
    rewrite Hc, Hn. replace (S j + 1) with (S (j + 1)) by lia.
    split; [reflexivity|]. split; [reflexivity|].
    constructor; [|assumption]. cbn. repeat split. exists kw. reflexivity.
Qed.

End EnrichedShape.

(** X8: every dict that [enrich_chunks_with_llm] returns has exactly the
    three entries content, keywords and summary, in this order; content is
    the chunk and keywords is a string, whatever the language model
    answered. *)
Theorem enrich_chunks_with_llm_shape w chunks st :
  exists enriched st',
    enrich_chunks_with_llm w chunks st = (Return enriched, st')
    /\ Forall2 (fun chunk d =>
                  exists kw sm,
                    d = [(K_CONTENT, VStr chunk); (K_KEYWORDS, VStr kw);
                         (K_SUMMARY, sm)])
               chunks enriched.
Proof.
  eexists. eexists. split; [apply enrich_chunks_with_llm_run|].
  apply enriched_entries_shape.
Qed.

(** X9: the records of [store_chunks_in_db] can always be built from what
    [enrich_chunks_with_llm] returns (the [KeyError] of a missing content
    cannot happen): there is one record per chunk, record number [k] holds
    chunk number [k] as its content, the numbers run from 1, and every
    record carries the document name and the role given. *)
Theorem db_chunks_of_enriched w chunks st document_name role :
  exists enriched st' records,
    enrich_chunks_with_llm w chunks st = (Return enriched, st')
    /\ db_chunks w enriched document_name role = Return records
    /\ map Models.chunk_content records = map VStr chunks
    /\ map Models.chunk_number records = seq 1 (length chunks)
    /\ Forall (fun r => Models.document_name r = document_name
                        /\ Models.role r = role
                        /\ exists kw, Models.keywords r = VStr kw)
              records.
Proof.
  destruct (db_chunks_from_shaped w document_name role chunks
              (enriched_entries w 1 chunks) 0
              (enriched_entries_shape w chunks 1))
    as (records & Hr & H).
  eexists. eexists. exists records.
  split; [apply enrich_chunks_with_llm_run|].
  split; [exact Hr | exact H].
Qed.

(** X10: when the answer of the language model holds under keywords a
    list with an item that is not a string, the chunk is treated as
    failed: its keywords and its summary are both empty, even though the
    answer had a summary. *)
Theorem enrich_rejects_non_string_keyword w chunks st k chunk d items :
  nth_error chunks k = Some chunk ->
  ask_llm w (k + 1) chunk = Return (VDict d) ->
  dict_get d K_KEYWORDS = Some (VList items) ->
  all_strs items = None ->
  exists enriched st',
    enrich_chunks_with_llm w chunks st = (Return enriched, st')
    /\ nth_error enriched k
       = Some [(K_CONTENT, VStr chunk); (K_KEYWORDS, VStr []);
               (K_SUMMARY, VStr [])].
Proof.
  intros Hk Hllm Hd Hitems. eexists. eexists.
  split; [apply enrich_chunks_with_llm_run|].
  rewrite (enriched_entries_nth w chunks 1 k chunk Hk).
  unfold enriched_entry. replace (1 + k) with (k + 1) by lia.
  rewrite Hllm. unfold enriched_of, py_get, get_default. rewrite Hd.
  unfold py_join. rewrite Hitems. reflexivity.
Qed.

Definition llm_number_keyword (i : nat) (chunk : str) : outcome PyVal :=
  Return (VDict [(K_KEYWORDS, VList [VStr (u "a"); VInt 2]);
                 (K_SUMMARY, VStr (u "about"))]).

Lemma enrich_rejects_non_string_keyword_witness :
  exists enriched st',
    enrich_chunks_with_llm (world_of llm_number_keyword None) [u "text"]
      empty_state = (Return enriched, st')
    /\ nth_error enriched 0
       = Some [(K_CONTENT, VStr (u "text")); (K_KEYWORDS, VStr []);
               (K_SUMMARY, VStr [])].
Proof.
  apply (enrich_rejects_non_string_keyword
           (world_of llm_number_keyword None) [u "text"] empty_state 0
           (u "text")
           [(K_KEYWORDS, VList [VStr (u "a"); VInt 2]);
            (K_SUMMARY, VStr (u "about"))]
           [VStr (u "a"); VInt 2]); reflexivity.
Defined.

(** X11: when the answer holds under keywords one string instead of a
    list, the string is joined character by character: the keywords field
    is its characters separated by commas. *)
Theorem enrich_splits_string_keywords w chunks st k chunk d s :
  nth_error chunks k = Some chunk ->
  ask_llm w (k + 1) chunk = Return (VDict d) ->
  dict_get d K_KEYWORDS = Some (VStr s) ->
  exists enriched st' e,
    enrich_chunks_with_llm w chunks st = (Return enriched, st')
    /\ nth_error enriched k = Some e
    /\ dict_get e K_KEYWORDS
       = Some (VStr (join [COMMA] (map (fun c => [c]) s))).
Proof.
  intros Hk Hllm Hd. eexists. eexists. eexists.
  split; [apply enrich_chunks_with_llm_run|].
  split; [apply (enriched_entries_nth w chunks 1 k chunk Hk)|].
  unfold enriched_entry. replace (1 + k) with (k + 1) by lia.
  rewrite Hllm. unfold enriched_of, py_get, get_default. rewrite Hd.
  reflexivity.
Qed.

Definition llm_string_keywords (i : nat) (chunk : str) : outcome PyVal :=
  Return (VDict [(K_KEYWORDS, VStr (u "ai")); (K_SUMMARY, VStr (u "s"))]).

Lemma enrich_splits_string_keywords_witness :
  exists enriched st' e,
    enrich_chunks_with_llm (world_of llm_string_keywords None) [u "text"]
      empty_state = (Return enriched, st')
    /\ nth_error enriched 0 = Some e
    /\ dict_get e K_KEYWORDS
       = Some (VStr (join [COMMA] (map (fun c => [c]) (u "ai")))).
Proof.
  apply (enrich_splits_string_keywords
           (world_of llm_string_keywords None) [u "text"] empty_state 0
           (u "text")
           [(K_KEYWORDS, VStr (u "ai")); (K_SUMMARY, VStr (u "s"))]
           (u "ai")); reflexivity.
Defined.

(** ** The persister: a chunk without content *)

Lemma db_chunks_missing_content w enriched document_name role item :
  In item enriched -> dict_get item K_CONTENT = None ->
  db_chunks w enriched document_name role = Raise (KeyError K_CONTENT).
Proof.
  intros Hin Hnone.
  pose proof (db_chunks_from_spec w document_name role enriched 0) as S.
  unfold db_chunks.
  destruct (db_chunks_from w 0 enriched document_name role) as [records|e].
  - destruct S as [_ Hnth]. apply In_nth_error in Hin.
    destruct Hin as [k Hk]. destruct (Hnth k item Hk) as (c & Hc & _).
    congruence.
  - destruct S as [-> _]. reflexivity.
Qed.

(** X12: when one of the enriched chunks, wherever it stands in the list,
    has no content key, [store_chunks_in_db] raises [KeyError] before
    anything is handed to the session: no [add_all], no [commit]; the
    session is rolled back and closed and the visible rows are
    unchanged. *)
Theorem store_chunks_in_db_missing_content
  w enriched document_name role st item :
  In item enriched -> dict_get item K_CONTENT = None ->
  store_chunks_in_db w enriched document_name role st
  = (Raise (KeyError K_CONTENT),
     mkState (rows st) []
       (trace st ++ [EvSession; EvRollback; EvLog ERROR; EvClose])).
Proof.
  intros Hin Hnone. rewrite store_chunks_in_db_run.
  unfold store_result, store_rows, store_failure, store_events.
  rewrite (db_chunks_missing_content w enriched document_name role item
             Hin Hnone).
  reflexivity.
Qed.

Lemma store_chunks_in_db_missing_content_witness :
  store_chunks_in_db (world_of llm_fails_on_second None)
    [unenriched (u "one"); [(K_KEYWORDS, VStr (u "k"))]]
    (VStr (u "doc")) ANALYST empty_state
  = (Raise (KeyError K_CONTENT),
     mkState [] [] [EvSession; EvRollback; EvLog ERROR; EvClose]).
Proof.
  apply (store_chunks_in_db_missing_content
           (world_of llm_fails_on_second None)
           [unenriched (u "one"); [(K_KEYWORDS, VStr (u "k"))]]
           (VStr (u "doc")) ANALYST empty_state
           [(K_KEYWORDS, VStr (u "k"))]).
  - right. left. reflexivity.
  - reflexivity.
Defined.

(** ** The orchestrator: what a run does *)

(** Brings the states and traces of a run to one shape. *)
Ltac norm_trace :=
  repeat first [ progress cbn [rows staged trace app]
               | rewrite <- app_assoc ].

Section OrchestratorFacts.

Variable w : World.

(** The state in which [process_fields] ends. *)
Definition process_final (file_path original_name role : PyVal)
  (st : State) : State :=
  match read_result w file_path with
  | Raise _ =>
      mkState (rows st) (staged st)
        (trace st ++ [EvLog INFO; EvOpen file_path; EvLog ERROR; EvLog ERROR])
  | Return content =>
      match chunk_content content with
      | [] =>
          mkState (rows st) (staged st)
            (trace st
             ++ [EvLog INFO; EvOpen file_path; EvLog INFO; EvLog WARNING])
      | (_ :: _) as chunks =>
          let enriched := enriched_entries w 1 chunks in
          let before :=
            [EvLog INFO; EvOpen file_path; EvLog INFO; EvLog INFO]
            ++ enrich_events w 1 chunks
            ++ [EvLog INFO]
            ++ store_events w original_name role enriched in
          mkState (store_rows w original_name role enriched st) []
            (trace st ++ before
             ++ match store_result w original_name role enriched with
                | Return _ => [EvLog INFO; EvLog INFO]
                | Raise _ => [EvLog ERROR]
                end)
      end
  end.

Lemma process_fields_run file_path original_name role st :
  process_fields w file_path original_name role st
  = (Return tt, process_final file_path original_name role st).
Proof.
  unfold process_fields, process_final. run_monad.
  rewrite read_file_content_run. unfold read_events.
  destruct (read_result w file_path) as [content|e]; norm_trace.
  - destruct (chunk_content content) as [|c cs]; norm_trace.
    + reflexivity.
    + rewrite enrich_chunks_with_llm_run, store_chunks_in_db_run.
      destruct (store_result w original_name role _) as [|e];
        norm_trace; reflexivity.
  - reflexivity.
Qed.

(** The calls that go to the database session. *)
Definition is_db_event (ev : Event) : bool :=
  match ev with
  | EvSession | EvAddAll _ | EvCommit | EvRollback | EvClose => true
  | _ => false
  end.

Lemma enrich_events_no_db chunks : forall i,
  Forall (fun ev => is_db_event ev = false) (enrich_events w i chunks).
Proof.
  induction chunks as [|c rest IH]; intros i; [constructor|].
  cbn [enrich_events]. constructor; [reflexivity|].
  apply Forall_app. split; [|apply IH].
  destruct (enrich_failed w i c); repeat constructor.
Qed.

Lemma store_events_no_llm document_name role enriched :
  llm_calls (store_events w document_name role enriched) = [].
Proof.
  unfold store_events, cleanup_events.
  destruct (db_chunks w enriched document_name role) as [records|];
    [|reflexivity].
  destruct (add_all_fault w records);
    [|destruct (commit_fault w records)];
    destruct (rollback_fault w); reflexivity.
Qed.

Lemma read_result_of_run file_path st r :
  fst (read_file_content w file_path st) = r -> read_result w file_path = r.
Proof. rewrite read_file_content_run. intros H. exact H. Qed.

End OrchestratorFacts.

(** X13: when the message is complete and reading the file fails,
    [process_document] logs and returns: the language model is not
    called, no session is opened, and the rows are unchanged. *)
Theorem process_document_read_failure
  w message st file_path original_name role e :
  message_fields message = Return (file_path, original_name, role) ->
  fst (read_file_content w file_path (snd (log INFO st))) = Raise e ->
  process_document w message st
  = (Return tt,
     mkState (rows st) (staged st)
       (trace st
        ++ [EvLog INFO; EvOpen file_path; EvLog ERROR; EvLog ERROR])).
Proof.
  intros Hm Hr. unfold process_document. rewrite Hm, process_fields_run.
  unfold process_final. rewrite (read_result_of_run w _ _ _ Hr).
  reflexivity.
Qed.

(** A world whose files cannot be opened. *)
Definition no_file_world : World :=
  mkWorld (fun _ => Raise FileNotFoundError)
          (fun _ => Return [])
          llm_fails_on_second
          (fun i => N.of_nat i)
          (fun _ => None)
          (fun _ => None)
          None
          None.

Lemma process_document_read_failure_witness :
  process_document no_file_world sample_message empty_state
  = (Return tt,
     mkState [] []
       [EvLog INFO; EvOpen (VStr (u "/data/report.pdf")); EvLog ERROR;
        EvLog ERROR]).
Proof.
  apply (process_document_read_failure no_file_world sample_message
           empty_state (VStr (u "/data/report.pdf"))
           (VStr (u "report.pdf")) ANALYST FileNotFoundError);
    reflexivity.
Defined.

(** X14: when the text read from the file holds nothing but whitespace
    (an empty document, or pages without text), [process_document] logs a
    warning and returns: the language model is not called, no session is
    opened, and the rows are unchanged. *)
Theorem process_document_blank_document
  w message st file_path original_name role content :
  message_fields message = Return (file_path, original_name, role) ->
  fst (read_file_content w file_path (snd (log INFO st))) = Return content ->
  Forall (fun c => isspace c = true) content ->
  process_document w message st
  = (Return tt,
     mkState (rows st) (staged st)
       (trace st
        ++ [EvLog INFO; EvOpen file_path; EvLog INFO; EvLog WARNING])).
Proof.
  intros Hm Hr Hblank. unfold process_document.
  rewrite Hm, process_fields_run.
  unfold process_final. rewrite (read_result_of_run w _ _ _ Hr).
  assert (Hnil : chunk_content content = []).
  { apply chunk_content_nil_tokens. apply split_from_nil.
    split; [reflexivity | assumption]. }
  rewrite Hnil. reflexivity.
Qed.

(** A world whose files have two pages without text. *)
Definition blank_pages_world : World :=
  mkWorld (fun _ => Return [])
          (fun _ => Return [Return None; Return (Some [])])
          llm_fails_on_second
          (fun i => N.of_nat i)
          (fun _ => None)
          (fun _ => None)
          None
          None.

Lemma process_document_blank_document_witness :
  process_document blank_pages_world sample_message empty_state
  = (Return tt,
     mkState [] []
       [EvLog INFO; EvOpen (VStr (u "/data/report.pdf")); EvLog INFO;
        EvLog WARNING]).
Proof.
  apply (process_document_blank_document blank_pages_world sample_message
           empty_state (VStr (u "/data/report.pdf"))
           (VStr (u "report.pdf")) ANALYST [NEWLINE]).
  - reflexivity.
  - reflexivity.
  - repeat constructor.
Defined.

(** X15: a run of [process_document] stores all the chunks of the
    document or none.  Either the visible rows are the ones there were
    before, or they have gained, in order, one row per chunk of the text
    read: row [k] holds chunk [k] as its content and [k] as its number
    (from 1), with the document name and the role of the message. *)
Theorem process_document_all_or_nothing w message st :
  exists st',
    process_document w message st = (Return tt, st')
    /\ (rows st' = rows st
        \/ exists file_path original_name role content records,
             message_fields message
             = Return (file_path, original_name, role)
             /\ fst (read_file_content w file_path (snd (log INFO st)))
                = Return content
             /\ rows st' = rows st ++ records
             /\ map Models.chunk_content records
                = map VStr (chunk_content content)
             /\ map Models.chunk_number records
                = seq 1 (length (chunk_content content))
             /\ Forall (fun r => Models.document_name r = original_name
                                 /\ Models.role r = role)
                       records).
Proof.
  unfold process_document.
  destruct (message_fields message) as [[[file_path original_name] role]|e]
    eqn:Em.
  - rewrite process_fields_run. eexists. split; [reflexivity|].
    unfold process_final.
    destruct (read_result w file_path) as [content|e] eqn:Er;
      [|left; reflexivity].
    destruct (chunk_content content) as [|c cs] eqn:Ec;
      [left; reflexivity|].
    cbn [rows]. unfold store_rows.
    destruct (store_failure w original_name role _); [left; reflexivity|].
    destruct (db_chunks_from_shaped w original_name role (c :: cs)
                (enriched_entries w 1 (c :: cs)) 0
                (enriched_entries_shape w (c :: cs) 1))
      as (records & Hr & Hc & Hn & Hf).
    fold (db_chunks w (enriched_entries w 1 (c :: cs)) original_name role)
      in Hr.
    rewrite Hr. right.
    exists file_path, original_name, role, content, records.
    split; [reflexivity|].
    split; [rewrite read_file_content_run; exact Er|].
    split; [reflexivity|]. rewrite Ec.
    split; [assumption|]. split; [assumption|].
    revert Hf. apply Forall_impl. intros r (H1 & H2 & _). split; assumption.
  - destruct (message_fields_raises _ _ Em) as [key ->].
    eexists. split; [reflexivity|]. left. reflexivity.
Qed.

(** X16: in a run of [process_document] the language model is called
    once for each chunk of the text read, in the order of the chunks and
    numbered from 1, and not at all when the message is incomplete or the
    file cannot be read. *)
Theorem process_document_llm_calls w message st :
  llm_calls (trace (snd (process_document w message st)))
  = llm_calls (trace st)
    ++ match message_fields message with
       | Return (file_path, _, _) =>
           match fst (read_file_content w file_path (snd (log INFO st)))
           with
           | Return content => numbered 1 (chunk_content content)
           | Raise _ => []
           end
       | Raise _ => []
       end.
Proof.
  unfold process_document.
  destruct (message_fields message) as [[[file_path original_name] role]|e]
    eqn:Em.
  - rewrite process_fields_run, read_file_content_run. cbn [fst snd].
    unfold process_final.
    destruct (read_result w file_path) as [content|e'];
      [|cbn [trace]; rewrite llm_calls_app; reflexivity].
    destruct (chunk_content content) as [|c cs];
      [cbn [trace]; rewrite llm_calls_app; reflexivity|].
    destruct (store_result w original_name role _);
      cbn [trace]; rewrite !llm_calls_app, llm_calls_enrich_events,
        store_events_no_llm; cbn [llm_calls app];
      rewrite ?app_nil_r; reflexivity.
  - destruct (message_fields_raises _ _ Em) as [key ->].
    run_monad. cbn [snd trace]. rewrite llm_calls_app. reflexivity.
Qed.

(** X17: the stages do not overlap: the trace of a run of
    [process_document] splits in a first part without any call to the
    database session and a second part without any call to the language
    model; the session is opened only after the last chunk was
    enriched. *)
Theorem process_document_stage_order w message st :
  exists before after,
    trace (snd (process_document w message st))
    = trace st ++ before ++ after
    /\ Forall (fun ev => is_db_event ev = false) before
    /\ llm_calls after = [].
Proof.
  unfold process_document.
  destruct (message_fields message) as [[[file_path original_name] role]|e]
    eqn:Em.
  - rewrite process_fields_run. cbn [snd]. unfold process_final.
    destruct (read_result w file_path) as [content|e'].
    + destruct (chunk_content content) as [|c cs].
      * eexists. exists []. cbn [trace]. rewrite app_nil_r.
        split; [reflexivity|]. split; [repeat constructor | reflexivity].
      * exists ([EvLog INFO; EvOpen file_path; EvLog INFO; EvLog INFO]
                ++ enrich_events w 1 (c :: cs) ++ [EvLog INFO]).
        exists (store_events w original_name role
                  (enriched_entries w 1 (c :: cs))
                ++ match store_result w original_name role
                           (enriched_entries w 1 (c :: cs)) with
                   | Return _ => [EvLog INFO; EvLog INFO]
                   | Raise _ => [EvLog ERROR]
                   end).
        split; [|split].
        -- cbn [trace]. rewrite <- !app_assoc. reflexivity.
        -- repeat (apply Forall_app; split);
             try apply enrich_events_no_db; repeat constructor.
        -- destruct (store_result w original_name role _);
             rewrite llm_calls_app, store_events_no_llm; reflexivity.
    + eexists. exists []. cbn [trace]. rewrite app_nil_r.
      split; [reflexivity|]. split; [repeat constructor | reflexivity].
  - destruct (message_fields_raises _ _ Em) as [key ->].
    exists [EvLog ERROR], []. split; [reflexivity|].
    split; [repeat constructor | reflexivity].
Qed.
